(** * rawgit: the upstream log parser (lib/log-parser.js)

    A shallow embedding of [lib/log-parser.js]: the regular expressions of
    the module as syntax trees run by a backtracking matcher with the
    priorities of ECMAScript's, [parseLine] as a function into an error
    monad, the [readable] handler with its overflow buffer, and the
    supervision of the [tail] subprocess as a transition system. *)

From Stdlib Require Import String Ascii.
From stdpp Require Import gmap list.

Local Open Scope N_scope.

(** ** JavaScript strings

    A JavaScript string is a sequence of UTF-16 code units. *)

Abbreviation char := N.
Abbreviation jsstring := (list N).

(** The code units of an ASCII literal. *)
Fixpoint str (s : string) : jsstring :=
  match s with
  | EmptyString => []
  | String a s' => N_of_ascii a :: str s'
  end.

Definition mem_char (c : char) (l : list char) : bool :=
  existsb (N.eqb c) l.

(** LineTerminator: LF, CR, LS, PS. *)
Definition line_terminators : list char := [10; 13; 8232; 8233].

Definition is_line_terminator (c : char) : bool := mem_char c line_terminators.

(** WhiteSpace: TAB, VT, FF, SP, NBSP, ZWNBSP and the category Zs. *)
Definition white_space : list char :=
  [9; 11; 12; 32; 160; 5760; 8192; 8193; 8194; 8195; 8196; 8197; 8198;
   8199; 8200; 8201; 8202; 8239; 8287; 12288; 65279].

(** The class [\s], which is also StrWhiteSpaceChar of [parseInt]. *)
Definition is_space (c : char) : bool :=
  mem_char c white_space || is_line_terminator c.

(** The class [\d]. *)
Definition is_digit (c : char) : bool := (48 <=? c) && (c <=? 57).

(** Canonicalize of a case-insensitive, non-Unicode pattern: the upper case
    of the code unit, except that a code unit outside ASCII never
    canonicalizes to an ASCII one.  Every literal character of the patterns
    below is ASCII, so that only the ASCII part of the mapping is ever
    compared; code units outside ASCII are left as they are. *)
Definition canonicalize (c : char) : char :=
  if (97 <=? c) && (c <=? 122) then c - 32 else c.

(** ** Regular expressions *)

Inductive cset : Type :=
| CsChar (c : char)              (* a pattern character *)
| CsDot                          (* [.] *)
| CsNotSpace                     (* [\S] *)
| CsDigit                        (* [\d] *)
| CsNoneOf (l : list char).      (* [[^...]] *)

Inductive regex : Type :=
| REmpty
| RChar (cs : cset)
| RSeq (r1 r2 : regex)
| RAlt (r1 r2 : regex)
| RStar (greedy : bool) (r : regex)
| RGroup (n : nat) (r : regex)
| RBol                           (* [^] *)
| REol.                          (* [$] *)

(** [r+], [r+?], [r?] and [r{n}] by their expansions; no quantified
    subpattern of this module captures, so that the expansions have the
    matches and the priorities of the quantifiers. *)
Definition RPlus (greedy : bool) (r : regex) : regex := RSeq r (RStar greedy r).
Definition ROpt (r : regex) : regex := RAlt r REmpty.

Fixpoint RTimes (n : nat) (r : regex) : regex :=
  match n with
  | O => REmpty
  | S n' => RSeq r (RTimes n' r)
  end.

Fixpoint RLit (s : jsstring) : regex :=
  match s with
  | [] => REmpty
  | c :: s' => RSeq (RChar (CsChar c)) (RLit s')
  end.

Fixpoint RCat (rs : list regex) : regex :=
  match rs with
  | [] => REmpty
  | r :: rs' => RSeq r (RCat rs')
  end.

Definition cset_match (icase : bool) (cs : cset) (c : char) : bool :=
  match cs with
  | CsChar p => if icase then canonicalize c =? canonicalize p else c =? p
  | CsDot => negb (is_line_terminator c)
  | CsNotSpace => negb (is_space c)
  | CsDigit => is_digit c
  | CsNoneOf l => negb (mem_char c l)
  end.

(** The state of a match: the input from the current index on, the index,
    and the captures made so far. *)
Record mstate : Type := MState {
  rest : jsstring;
  idx : nat;
  caps : gmap nat jsstring
}.

Definition continuation := mstate -> option mstate.

(** The text between two states of one match. *)
Definition consumed (s s' : mstate) : jsstring :=
  take (length (rest s) - length (rest s')) (rest s).

Definition set_cap (n : nat) (w : jsstring) (s : mstate) : mstate :=
  MState (rest s) (idx s) (<[n := w]> (caps s)).

(** The loop of a quantifier [*] or [*?]: an iteration that consumes
    nothing is refused, so that an input of length [fuel] allows [fuel]
    iterations at most. *)
Fixpoint star_loop (greedy : bool)
    (body : continuation -> mstate -> option mstate)
    (k : continuation) (fuel : nat) (s : mstate) : option mstate :=
  match fuel with
  | O => k s
  | S fuel' =>
      if greedy then
        match body (fun s' =>
                if (length (rest s') <? length (rest s))%nat
                then star_loop greedy body k fuel' s' else None) s with
        | Some x => Some x
        | None => k s
        end
      else
        match k s with
        | Some x => Some x
        | None =>
            body (fun s' =>
                if (length (rest s') <? length (rest s))%nat
                then star_loop greedy body k fuel' s' else None) s
        end
  end.

(** The backtracking matcher, in continuation-passing style: the first
    alternative that lets the continuation succeed wins. *)
Fixpoint rmatch (icase : bool) (r : regex) (k : continuation) (s : mstate)
    {struct r} : option mstate :=
  match r with
  | REmpty => k s
  | RChar cs =>
      match rest s with
      | c :: t =>
          if cset_match icase cs c then k (MState t (S (idx s)) (caps s))
          else None
      | [] => None
      end
  | RSeq r1 r2 => rmatch icase r1 (rmatch icase r2 k) s
  | RAlt r1 r2 =>
      match rmatch icase r1 k s with
      | Some x => Some x
      | None => rmatch icase r2 k s
      end
  | RStar greedy r1 =>
      star_loop greedy (rmatch icase r1) k (length (rest s)) s
  | RGroup n r1 =>
      rmatch icase r1 (fun s' => k (set_cap n (consumed s s') s')) s
  | RBol => if (idx s =? 0)%nat then k s else None
  | REol => match rest s with [] => k s | _ :: _ => None end
  end.

(** A pattern with its [i] flag. *)
Record regexp : Type := RegExp { source : regex; ignoreCase : bool }.

(** The result of a successful match: where it starts, the matched text
    (group 0) and the captures. *)
Record match_result : Type := MatchResult {
  m_index : nat;
  m_text : jsstring;
  m_caps : gmap nat jsstring
}.

(** RegExpBuiltinExec without the [g] and [y] flags: the first start index,
    from 0 on, at which the pattern matches. *)
Fixpoint exec_from (re : regexp) (i : nat) (s : jsstring) : option match_result :=
  match rmatch (ignoreCase re) (source re) Some (MState s i ∅) with
  | Some e => Some (MatchResult i (take (length s - length (rest e)) s) (caps e))
  | None =>
      match s with
      | [] => None
      | _ :: s' => exec_from re (S i) s'
      end
  end.

Definition exec (re : regexp) (s : jsstring) : option match_result :=
  exec_from re 0 s.

(** [re.test(s)]. *)
Definition test (re : regexp) (s : jsstring) : bool :=
  match exec re s with Some _ => true | None => false end.

(** A replacement template: literal text and [$n] references. *)
Inductive repl_part : Type :=
| ReplText (t : jsstring)
| ReplGroup (n : nat).

Definition expand (m : match_result) (p : repl_part) : jsstring :=
  match p with
  | ReplText t => t
  | ReplGroup n => default [] (m_caps m !! n)
  end.

(** [s.replace(re, template)] for a pattern without the [g] flag: the first
    match is replaced, and a string without a match is returned as it is. *)
Definition replace (re : regexp) (tmpl : list repl_part) (s : jsstring) : jsstring :=
  match exec re s with
  | Some m =>
      take (m_index m) s ++ concat (map (expand m) tmpl)
        ++ drop (m_index m + length (m_text m)) s
  | None => s
  end.

(** ** The patterns of the module *)

Definition c_space : char := 32.
Definition c_quote : char := 34.
Definition c_slash : char := 47.
Definition c_qmark : char := 63.
Definition c_lf : char := 10.

Definition lit (s : string) : regex := RLit (str s).
Definition ch (a : ascii) : regex := RChar (CsChar (N_of_ascii a)).
Definition not_space : regex := RChar CsNotSpace.
Definition dot : regex := RChar CsDot.
Definition digit : regex := RChar CsDigit.
Definition not_quote : regex := RChar (CsNoneOf [c_quote]).

Definition quote : regex := RChar (CsChar c_quote).

(** The pattern of a line in Common or Combined Log Format.  With Q for the
    double quote and NQ for the class of every character but it:
    [^(\S+) \S+ \S+ \[(.+?)\] Q(\S+) (\S+) \S+Q (\S+) (\S+)(?: Q(NQ-star)Q Q(NQ-star)Q)?$]. *)
Definition REGEX_CLF : regexp :=
  RegExp
    (RCat [ RBol;
            RGroup 1 (RPlus true not_space); lit " ";
            RPlus true not_space; lit " ";
            RPlus true not_space; lit " [";
            RGroup 2 (RPlus false dot); lit "] "; quote;
            RGroup 3 (RPlus true not_space); lit " ";
            RGroup 4 (RPlus true not_space); lit " ";
            RPlus true not_space; quote; lit " ";
            RGroup 5 (RPlus true not_space); lit " ";
            RGroup 6 (RPlus true not_space);
            ROpt (RCat [ lit " "; quote; RGroup 7 (RStar true not_quote);
                         quote; lit " "; quote;
                         RGroup 8 (RStar true not_quote); quote ]);
            REol ])
    false.

(** [/(\/\d+):(\d+)/] *)
Definition REGEX_DATE : regexp :=
  RegExp
    (RCat [ RGroup 1 (RSeq (lit "/") (RPlus true digit)); lit ":";
            RGroup 2 (RPlus true digit) ])
    false.

(** [/^\/.+?\/.+?\/.+?\/.+/] *)
Definition REGEX_EXTERNAL : regexp :=
  RegExp
    (RCat [ RBol; lit "/"; RPlus false dot; lit "/"; RPlus false dot;
            lit "/"; RPlus false dot; lit "/"; RPlus true dot ])
    false.

(** [/^https?:\/\/(?:localhost|127\.0\.0\.1|\[(?:(?:0+:){7}|::)0*1(?:\/128)?\])(?::\d+)?\//i] *)
Definition REGEX_LOOOPBACK_URL : regexp :=
  RegExp
    (RCat [ RBol; lit "http"; ROpt (lit "s"); lit "://";
            RAlt (lit "localhost")
              (RAlt (lit "127.0.0.1")
                 (RCat [ lit "[";
                         RAlt (RTimes 7 (RSeq (RPlus true (ch "0")) (lit ":")))
                              (lit "::");
                         RStar true (ch "0"); lit "1"; ROpt (lit "/128");
                         lit "]" ]));
            ROpt (RSeq (lit ":") (RPlus true digit));
            lit "/" ])
    true.

(** [/\?.*$/] *)
Definition REGEX_QUERY : regexp :=
  RegExp (RCat [ lit "?"; RStar true dot; REol ]) false.

(** [/^https?:\/\/rawgit(?:hub)?\.com\//i] *)
Definition REGEX_RAWGIT : regexp :=
  RegExp
    (RCat [ RBol; lit "http"; ROpt (lit "s"); lit "://rawgit";
            ROpt (lit "hub"); lit ".com/" ])
    true.

(** ** Values of the host

    The time value of [Date.parse] is an integer of at most 8.64e15 in
    magnitude, which a Number holds exactly: it is given as that integer,
    and [NaN] as [None]; the scrollback of the configuration is taken the
    same way.  The result of [parseInt] may lie beyond the 53 bits of a
    Number, and is a [number] (below).  A value that may be [undefined] is
    an [option]. *)

Inductive js_error : Type := TypeError.

(** The completion of a call: a normal return or a thrown error. *)
Inductive completion (A : Type) : Type :=
| Normal (a : A)
| Throw (e : js_error).
Arguments Normal {A} a.
Arguments Throw {A} e.

#[global] Instance completion_ret : MRet completion := fun _ a => Normal a.

#[global] Instance completion_bind : MBind completion := fun _ _ f c =>
  match c with
  | Normal a => f a
  | Throw e => Throw e
  end.

(** [v.replace(re, template)] on a value that may be [undefined]: reading
    the method of [undefined] throws a TypeError. *)
Definition method_replace (v : option jsstring) (re : regexp)
    (tmpl : list repl_part) : completion jsstring :=
  match v with
  | Some s => Normal (replace re tmpl s)
  | None => Throw TypeError
  end.

(** [v === s] for a string literal [s]. *)
Definition strict_eq (v : option jsstring) (s : jsstring) : bool :=
  match v with
  | Some w => bool_decide (w = s)
  | None => false
  end.

Definition digit_value (c : char) : Z := Z.of_N (c - 48).

Definition decimal (ds : jsstring) : Z :=
  fold_left (fun acc c => (10 * acc + digit_value c)%Z) ds 0%Z.

Fixpoint digits_prefix (s : jsstring) : jsstring :=
  match s with
  | c :: s' => if is_digit c then c :: digits_prefix s' else []
  | [] => []
  end.

Fixpoint trim_start (s : jsstring) : jsstring :=
  match s with
  | c :: s' => if is_space c then trim_start s' else s
  | [] => []
  end.

Definition c_minus : char := 45.
Definition c_plus : char := 43.

(** The Numbers that [parseInt] returns: an integer that a double holds,
    the negative zero, an infinity, or [NaN]. *)
Inductive number : Type :=
  | Int (z : Z)
  | NegZero
  | Infinity (negative : bool)
  | NaN.

(** The Number value of the integer [m], which is not negative, under the
    sign [negative]: [m] itself up to 53 bits, and beyond them the nearest
    integer of 53 significant bits, the one with the even significand at a
    tie, and an infinity when that is [2^1024]. *)
Definition to_number (negative : bool) (m : Z) : number :=
  if (m =? 0)%Z then (if negative then NegZero else Int 0)
  else
    let k := (Z.log2 m - 52)%Z in
    let v :=
      if (k <=? 0)%Z then m
      else
        let q := (m / 2 ^ k)%Z in
        let r := (m mod 2 ^ k)%Z in
        if (2 ^ k <? 2 * r)%Z || ((2 * r =? 2 ^ k)%Z && Z.odd q)
        then ((q + 1) * 2 ^ k)%Z
        else (q * 2 ^ k)%Z in
    if (2 ^ 1024 <=? v)%Z then Infinity negative
    else Int (if negative then (- v)%Z else v).

(** [parseInt(v, 10)]: leading white space is skipped, a sign is read, and
    the longest prefix of decimal digits is the value, as the Number
    nearest to it (every digit counts); without a digit the result is
    [NaN].  The radix is given, so that no [0x] prefix is read.
    [undefined] is converted to the string of its name first. *)
Definition parseInt10 (v : option jsstring) : number :=
  let s := trim_start (default (str "undefined") v) in
  let '(negative, s1) :=
    match s with
    | c :: s' =>
        if c =? c_minus then (true, s')
        else if c =? c_plus then (false, s')
        else (false, s)
    | [] => (false, s)
    end in
  match digits_prefix s1 with
  | [] => NaN
  | ds => to_number negative (decimal ds)
  end.

(** [n || 0] for a Number: [NaN] and the two zeros are falsy. *)
Definition number_or_zero (n : number) : number :=
  match n with
  | NaN | NegZero => Int 0
  | Int z => if (z =? 0)%Z then Int 0 else n
  | Infinity _ => n
  end.

(** [n || 0] where the Number is an integer or [NaN]: [NaN] and zero are
    falsy. *)
Definition or_zero (n : option Z) : Z :=
  match n with
  | Some z => if (z =? 0)%Z then 0%Z else z
  | None => 0%Z
  end.

(** The names that an ordinary object inherits from [Object.prototype]; the
    value of each is truthy. *)
Definition object_prototype_names : list jsstring :=
  map str [ "constructor"; "__defineGetter__"; "__defineSetter__";
            "hasOwnProperty"; "__lookupGetter__"; "__lookupSetter__";
            "isPrototypeOf"; "propertyIsEnumerable"; "toString"; "valueOf";
            "__proto__"; "toLocaleString" ]%string.

(** The truthiness of [obj[key]] for an ordinary object whose own
    properties are [obj], each with the truthiness of its value. *)
Definition truthy_get (obj : gmap jsstring bool) (key : jsstring) : bool :=
  match obj !! key with
  | Some b => b
  | None => bool_decide (key ∈ object_prototype_names)
  end.

(** ** Configuration ([require('../conf')])

    The configuration module is not part of this module; the three
    settings that the parser reads are taken as they come. *)
Record config : Type := Config {
  upstreamRequestLog : option jsstring;
  upstreamRequestLogScrollback : option Z;
  statsIgnorePaths : gmap jsstring bool
}.

(** ** The collector boundary: the arguments of one [stats.logRequest]. *)
Record AcceptedEvent : Type := Event {
  ev_path : jsstring;
  ev_referrer : jsstring;
  ev_size : number;
  ev_time : Z
}.

Definition quoted (w : jsstring) : jsstring := c_quote :: w ++ [c_quote].

Section Parser.

(** The configuration, and [Date.parse] of the host, whose grammar outside
    the ISO format is left to the implementation. *)
Variable conf : config.
Variable Date_parse : jsstring -> option Z.

(** [parseLine(line)]: [Normal None] when the function returns without a
    call of the collector, [Normal (Some e)] when it calls
    [stats.logRequest] with [e]. *)
Definition parseLine (line : jsstring) : completion (option AcceptedEvent) :=
  match exec REGEX_CLF line with
  | None => Normal None
  | Some matches =>
      if strict_eq (m_caps matches !! 5%nat) (str "403") then Normal None
      else
        path ← method_replace (m_caps matches !! 4%nat) REGEX_QUERY [];
        if truthy_get (statsIgnorePaths conf) path
           || negb (test REGEX_EXTERNAL path)
        then Normal None
        else
          referrer ← method_replace (m_caps matches !! 7%nat) REGEX_QUERY [];
          if test REGEX_LOOOPBACK_URL referrer then Normal None
          else if test REGEX_RAWGIT referrer
                  && negb (test REGEX_EXTERNAL referrer)
          then Normal None
          else
            let size := number_or_zero (parseInt10 (m_caps matches !! 6%nat)) in
            date ← method_replace (m_caps matches !! 2%nat) REGEX_DATE
                      [ReplGroup 1; ReplText (str " "); ReplGroup 2];
            let time := or_zero (Date_parse date) in
            Normal (Some (Event path referrer size time))
  end.

(** ** The line splitter of [tail] *)

(** [s.split(sep)] for a separator of one character. *)
Fixpoint split (sep : char) (s : jsstring) : list jsstring :=
  match s with
  | [] => [[]]
  | c :: s' =>
      if c =? sep then [] :: split sep s'
      else match split sep s' with
           | w :: ws => (c :: w) :: ws
           | [] => [[c]]
           end
  end.

(** The value read from the stream, a string or [null], as the operand of
    a string concatenation. *)
Definition chunk_text (chunk : option jsstring) : jsstring :=
  default (str "null") chunk.

(** [lines.pop()]: the array without its last element, and that element;
    [undefined] from an empty array, which is the string of its name once
    it is concatenated. *)
Definition pop (lines : list jsstring) : list jsstring * jsstring :=
  (removelast lines, default (str "undefined") (last lines)).

(** The first three statements of the [readable] handler: the complete
    lines of [overflow + chunk], and the new overflow. *)
Definition split_chunk (overflow : jsstring) (chunk : option jsstring)
    : list jsstring * jsstring :=
  pop (split c_lf (overflow ++ chunk_text chunk)).

(** The loop of the handler: [parseLine] on every line in order; a throw
    leaves the loop, and the events logged before it stay logged. *)
Fixpoint parse_lines (lines : list jsstring) (logged : list AcceptedEvent)
    : list AcceptedEvent * completion unit :=
  match lines with
  | [] => (logged, Normal tt)
  | l :: ls =>
      match parseLine l with
      | Normal None => parse_lines ls logged
      | Normal (Some e) => parse_lines ls (logged ++ [e])
      | Throw err => (logged, Throw err)
      end
  end.

(** ** The supervision of the subprocess *)

(** One call [spawn('tail', ['-F', '-n', scrollBack, logPath])]. *)
Record spawn_call : Type := Spawn {
  sp_scrollBack : Z;
  sp_logPath : jsstring
}.

(** The state of the module: the exported flag, the calls of [spawn] so
    far, the overflow of the stream whose listeners are attached, the
    calls of the collector so far, and the error that left a handler
    uncaught, if any. *)
Record module_state : Type := ModuleState {
  enabled : bool;
  spawned : list spawn_call;
  overflow : jsstring;
  logged : list AcceptedEvent;
  uncaught : option js_error
}.

(** [tail(logPath, respawn)]: the subprocess is started and a fresh
    overflow belongs to the new stream. *)
Definition tail (logPath : jsstring) (respawn : bool) (st : module_state)
    : module_state :=
  let scrollBack :=
    if respawn then 0%Z else or_zero (upstreamRequestLogScrollback conf) in
  ModuleState (enabled st) (spawned st ++ [Spawn scrollBack logPath]) []
    (logged st) (uncaught st).

(** [init()], with the answer of [fs.existsSync]. *)
Definition init (existsSync : jsstring -> bool) : module_state :=
  let st0 := ModuleState false [] [] [] None in
  match upstreamRequestLog conf with
  | None => st0
  | Some logPath =>
      if bool_decide (logPath = []) || negb (existsSync logPath) then st0
      else
        let st := tail logPath false st0 in
        ModuleState true (spawned st) (overflow st) (logged st) (uncaught st)
  end.

(** The events of the subprocess and of its output stream. *)
Inductive tail_event : Type :=
| OnError
| OnExit
| OnReadable (chunk : option jsstring).

(** The handlers that [tail logPath] attaches. *)
Definition handle (logPath : jsstring) (st : module_state) (ev : tail_event)
    : module_state :=
  match ev with
  | OnError =>
      ModuleState false (spawned st) (overflow st) (logged st) (uncaught st)
  | OnExit => tail logPath true st
  | OnReadable chunk =>
      let '(lines, overflow') := split_chunk (overflow st) chunk in
      let '(logged', c) := parse_lines lines (logged st) in
      ModuleState (enabled st) (spawned st) overflow' logged'
        (match c with Normal _ => None | Throw e => Some e end)
  end.

(** A run of the module: the events are handled in order until an error
    is left uncaught, which ends the host process. *)
Fixpoint run (logPath : jsstring) (st : module_state) (evs : list tail_event)
    : module_state :=
  match evs with
  | [] => st
  | ev :: evs' =>
      match uncaught st with
      | Some _ => st
      | None => run logPath (handle logPath st ev) evs'
      end
  end.

End Parser.

(** The field of a parsed request: capture [n] of [REGEX_CLF] on the line,
    absent when the line does not match or the group did not take part. *)
Definition parsed_field (line : jsstring) (n : nat) : option jsstring :=
  m ← exec REGEX_CLF line; m_caps m !! n.

(** The query-stripped form of a URL. *)
Definition strip_query (url : jsstring) : jsstring := replace REGEX_QUERY [] url.

(** * The relational semantics of the patterns *)

(** [rmatches icase r s s']: the pattern [r] can take the match from the
    state [s] to the state [s']. *)
Inductive rmatches (icase : bool) : regex -> mstate -> mstate -> Prop :=
| M_empty s : rmatches icase REmpty s s
| M_char cs c t i cp :
    cset_match icase cs c = true ->
    rmatches icase (RChar cs) (MState (c :: t) i cp) (MState t (S i) cp)
| M_seq r1 r2 s s1 s2 :
    rmatches icase r1 s s1 -> rmatches icase r2 s1 s2 ->
    rmatches icase (RSeq r1 r2) s s2
| M_alt_l r1 r2 s s' :
    rmatches icase r1 s s' -> rmatches icase (RAlt r1 r2) s s'
| M_alt_r r1 r2 s s' :
    rmatches icase r2 s s' -> rmatches icase (RAlt r1 r2) s s'
| M_star_stop g r s : rmatches icase (RStar g r) s s
| M_star_step g r s s1 s2 :
    rmatches icase r s s1 ->
    (length (rest s1) < length (rest s))%nat ->
    rmatches icase (RStar g r) s1 s2 ->
    rmatches icase (RStar g r) s s2
| M_group n r s s' :
    rmatches icase r s s' ->
    rmatches icase (RGroup n r) s (set_cap n (consumed s s') s')
| M_bol s : idx s = 0%nat -> rmatches icase RBol s s
| M_eol s : rest s = [] -> rmatches icase REol s s.

(** [wmatch icase r w]: the pattern matches the word [w] wherever it
    stands. *)
Definition wmatch (icase : bool) (r : regex) (w : jsstring) : Prop :=
  forall t i cp,
    rmatches icase r (MState (w ++ t) i cp) (MState t (i + length w) cp).

(** The bodies of the groups numbered [n] in a pattern. *)
Fixpoint group_bodies (n : nat) (r : regex) : list regex :=
  match r with
  | RSeq r1 r2 | RAlt r1 r2 => group_bodies n r1 ++ group_bodies n r2
  | RStar _ r1 => group_bodies n r1
  | RGroup n' r1 =>
      (if decide (n' = n) then [r1] else []) ++ group_bodies n r1
  | _ => []
  end.

(** Whether group [n] takes part in every match of a pattern. *)
Fixpoint mandatory (n : nat) (r : regex) : bool :=
  match r with
  | RSeq r1 r2 => mandatory n r1 || mandatory n r2
  | RAlt r1 r2 => mandatory n r1 && mandatory n r2
  | RGroup n' r1 => bool_decide (n' = n) || mandatory n r1
  | _ => false
  end.

(** * The vocabulary of the properties *)

(** A character that [.] matches. *)
Definition dot_ok (c : char) : Prop := is_line_terminator c = false.

Definition no_space (w : jsstring) : Prop :=
  Forall (fun c => is_space c = false) w.

(** The non-empty pieces of a path between its slashes. *)
Definition segments (p : jsstring) : list jsstring :=
  filter (fun w => w <> []) (split c_slash p).

(** The number of slashes of a path. *)
Definition slashes (p : jsstring) : nat :=
  length (filter (fun c => c = c_slash) p).

(** The shape that [REGEX_EXTERNAL] asks of the beginning of a string: a
    slash, three non-empty runs each followed by a slash, and one more
    character; a run may hold slashes of its own. *)
Definition external_shape (p : jsstring) : Prop :=
  exists x1 x2 x3 c t,
    p = c_slash :: x1 ++ c_slash :: x2 ++ c_slash :: x3 ++ c_slash :: c :: t
    /\ x1 <> [] /\ x2 <> [] /\ x3 <> []
    /\ Forall dot_ok (x1 ++ x2 ++ x3 ++ [c]).

(** The part of a URL before its first question mark. *)
Fixpoint before_query (s : jsstring) : jsstring :=
  match s with
  | [] => []
  | c :: s' => if c =? c_qmark then [] else c :: before_query s'
  end.

(** Equality up to the case of the ASCII letters. *)
Definition ieq (a b : jsstring) : Prop :=
  map canonicalize a = map canonicalize b.

Definition zeros (w : jsstring) : Prop := Forall (fun c => c = 48) w.

(** [n] groups of zeros, each followed by a colon. *)
Inductive zero_groups : nat -> jsstring -> Prop :=
| zero_groups_O : zero_groups 0 []
| zero_groups_S n z w :
    z <> [] -> zeros z -> zero_groups n w ->
    zero_groups (S n) (z ++ str ":" ++ w).

(** The spellings of the IPv6 loopback address that the module knows: two
    colons or seven groups of zeros, then zeros at will and a one, with
    or without the prefix length. *)
Definition ipv6_loopback (a : jsstring) : Prop :=
  exists pre z m,
    a = pre ++ z ++ str "1" ++ m
    /\ (pre = str "::" \/ zero_groups 7 pre)
    /\ zeros z
    /\ (m = [] \/ m = str "/128").

Definition loopback_host (h : jsstring) : Prop :=
  ieq h (str "localhost") \/ h = str "127.0.0.1"
  \/ exists a, h = str "[" ++ a ++ str "]" /\ ipv6_loopback a.

Definition port_suffix (p : jsstring) : Prop :=
  p = [] \/
  exists ds, p = str ":" ++ ds /\ ds <> []
    /\ Forall (fun c => is_digit c = true) ds.

(** A URL of the scheme http or https whose host is a loopback host, with
    or without a port, and whose path begins. *)
Definition loopback_url (u : jsstring) : Prop :=
  exists scheme h p t,
    u = scheme ++ str "://" ++ h ++ p ++ str "/" ++ t
    /\ (ieq scheme (str "http") \/ ieq scheme (str "https"))
    /\ loopback_host h /\ port_suffix p.

(** The lines and the last overflow of a stream read in the chunks [cs]:
    the first three statements of the handler, chunk after chunk. *)
Fixpoint feed (overflow : jsstring) (cs : list (option jsstring))
    : list jsstring * jsstring :=
  match cs with
  | [] => ([], overflow)
  | c :: cs' =>
      let '(lines, overflow') := split_chunk overflow c in
      let '(lines', last_overflow) := feed overflow' cs' in
      (lines ++ lines', last_overflow)
  end.

(** A stream put together again from its lines and its overflow. *)
Definition unsplit (lines : list jsstring) (overflow : jsstring) : jsstring :=
  concat (map (fun l => l ++ [c_lf]) lines) ++ overflow.

(** The number of exits of the subprocess among the events. *)
Fixpoint exits (evs : list tail_event) : nat :=
  match evs with
  | [] => 0
  | OnExit :: evs' => S (exits evs')
  | _ :: evs' => exits evs'
  end.

(** The bytes field without its sign. *)
Definition unsigned_part (b : jsstring) : jsstring :=
  match b with
  | c :: b' => if (c =? c_minus) || (c =? c_plus) then b' else b
  | [] => []
  end.

(** The bytes field begins with a minus sign. *)
Definition negative_field (b : jsstring) : bool :=
  match b with
  | c :: _ => c =? c_minus
  | [] => false
  end.

(** The integer [z] under the sign of the bytes field [b]. *)
Definition with_sign_of (b : jsstring) (z : Z) : Z :=
  if negative_field b then (- z)%Z else z.

(** The multiple of [2^k] nearest to [q * 2^k + r], where [0 <= r < 2^k]:
    the even multiple when [r] is the half of [2^k]. *)
Definition round_even (q k r : Z) : Z :=
  ((if (2 ^ k <? 2 * r)%Z || ((2 * r =? 2 ^ k)%Z && Z.odd q)
    then q + 1 else q) * 2 ^ k)%Z.

(** A Number that is zero or above it. *)
Definition not_negative (n : number) : Prop :=
  match n with
  | Int z => (0 <= z)%Z
  | Infinity negative => negative = false
  | NegZero | NaN => False
  end.

(** What is asked of the path of an event at the collector. *)
Definition collector_path_ok (conf : config) (e : AcceptedEvent) : Prop :=
  head (ev_path e) = Some c_slash
  /\ (4 <= slashes (ev_path e))%nat
  /\ (c_qmark ∉ ev_path e)
  /\ truthy_get (statsIgnorePaths conf) (ev_path e) = false.

(** ** Sample lines, in the format of the log *)

Definition c_cr : char := 13.

Definition clf_line (request status bytes : string) : jsstring :=
  str "1.2.3.4 - - [10/Oct/2020:13:55:36 -0700] " ++ quoted (str request)
    ++ str " " ++ str status ++ str " " ++ str bytes.

Definition combined_line (request status bytes : string) (referrer : jsstring)
    : jsstring :=
  clf_line request status bytes ++ str " " ++ quoted referrer ++ str " "
    ++ quoted (str "UA").

Definition sample_log : jsstring := str "/var/log/nginx/access.log".

Definition sample_conf : config :=
  Config (Some sample_log) (Some 1000%Z)
    {[ str "/rgrove/rawgit/master/ignored.js" := true ]}.

Definition sample_date (d : jsstring) : option Z := Some 1602363336000%Z.

Definition sample_exists (p : jsstring) : bool := true.

Definition accepted_line : jsstring :=
  combined_line "GET /user/repo/main/file.js?x=1 HTTP/1.1" "200" "512"
    (str "https://example.com/page").

Definition accepted_event : AcceptedEvent :=
  Event (str "/user/repo/main/file.js") (str "https://example.com/page")
    (Int 512) 1602363336000.

Definition blocked_line : jsstring :=
  combined_line "GET /user/repo/main/file.js?x=1 HTTP/1.1" "403" "512"
    (str "https://example.com/page").

Definition mirror_deep_line : jsstring :=
  combined_line "GET /user/repo/main/file.js?x=1 HTTP/1.1" "200" "512"
    (str "https://rawgit.com/user/repo/main/index.html").

Definition plain_line : jsstring :=
  clf_line "GET /user/repo/main/file.js HTTP/1.1" "200" "512".

Definition empty_segment_line : jsstring :=
  combined_line "GET /user/repo/main// HTTP/1.1" "200" "512"
    (str "https://example.com/page").

Definition relative_path_line : jsstring :=
  combined_line "GET user/repo/main/file.js HTTP/1.1" "200" "512"
    (str "https://example.com/page").

Definition loopback_line : jsstring :=
  combined_line "GET /user/repo/main/file.js HTTP/1.1" "200" "512"
    (str "http://localhost:8080/x?y=1").

Definition loopback_bare_line : jsstring :=
  combined_line "GET /user/repo/main/file.js HTTP/1.1" "200" "512"
    (str "http://localhost:8080").

Definition loopback_short_line : jsstring :=
  combined_line "GET /user/repo/main/file.js HTTP/1.1" "200" "512"
    (str "http://[0::1]/x").

Definition cr_referrer : jsstring :=
  str "https://example.com/page?x=1" ++ [c_cr] ++ str "y".

Definition cr_line : jsstring :=
  combined_line "GET /user/repo/main/file.js?x=1 HTTP/1.1" "200" "512"
    cr_referrer.

Definition negative_line : jsstring :=
  combined_line "GET /user/repo/main/file.js HTTP/1.1" "200" "-5"
    (str "https://example.com/page").

(** ** The vocabulary of the further properties *)

(** The stops of a greedy quantifier over the run [w]: the continuation is
    tried after the whole run first, and then after each shorter part. *)
Fixpoint scan_back (k : continuation) (w t : jsstring) (i : nat)
    (cp : gmap nat jsstring) : option mstate :=
  match w with
  | [] => k (MState t i cp)
  | c :: w' =>
      match scan_back k w' t (S i) cp with
      | Some x => Some x
      | None => k (MState (c :: w' ++ t) i cp)
      end
  end.

(** The run of a class ends at [t]: [t] is empty or begins with a
    character outside the class. *)
Definition ends_run (icase : bool) (cs : cset) (t : jsstring) : Prop :=
  forall c, head t = Some c -> cset_match icase cs c = false.

Definition c_rbracket : char := 93.

(** The fields of an entry of the log. *)
Record log_entry : Type := LogEntry {
  le_ip : jsstring;
  le_ident : jsstring;
  le_user : jsstring;
  le_date : jsstring;
  le_method : jsstring;
  le_path : jsstring;
  le_protocol : jsstring;
  le_status : jsstring;
  le_bytes : jsstring
}.

(** The entry as a line of the log, followed by [tail]. *)
Definition format_entry (f : log_entry) (tail : jsstring) : jsstring :=
  le_ip f ++ str " " ++ le_ident f ++ str " " ++ le_user f ++ str " ["
    ++ le_date f ++ str "] " ++ c_quote :: le_method f ++ str " "
    ++ le_path f ++ str " " ++ le_protocol f ++ c_quote :: str " "
    ++ le_status f ++ str " " ++ le_bytes f ++ tail.

(** The line in Common Log Format, and in Combined Log Format. *)
Definition format_clf (f : log_entry) : jsstring := format_entry f [].

Definition format_combined (f : log_entry) (referrer useragent : jsstring)
    : jsstring :=
  format_entry f
    (str " " ++ c_quote :: referrer ++ c_quote :: str " "
       ++ c_quote :: useragent ++ [c_quote]).

(** A field without white space. *)
Definition token (w : jsstring) : Prop := w <> [] /\ no_space w.

Definition wf_entry (f : log_entry) : Prop :=
  token (le_ip f) /\ token (le_ident f) /\ token (le_user f)
  /\ (le_date f <> [] /\ Forall dot_ok (le_date f) /\ c_rbracket ∉ le_date f)
  /\ token (le_method f) /\ token (le_path f) /\ token (le_protocol f)
  /\ token (le_status f) /\ token (le_bytes f).

(** The captures of [REGEX_CLF] on an entry. *)
Definition entry_caps (f : log_entry) : gmap nat jsstring :=
  <[6%nat := le_bytes f]> (<[5%nat := le_status f]> (<[4%nat := le_path f]>
    (<[3%nat := le_method f]> (<[2%nat := le_date f]>
      (<[1%nat := le_ip f]> ∅))))).

(** [rs] in sequence, and then [r]. *)
Fixpoint RCatK (rs : list regex) (r : regex) : regex :=
  match rs with
  | [] => r
  | r1 :: rs' => RSeq r1 (RCatK rs' r)
  end.

(** The captures of [REGEX_CLF] on a line in Combined Log Format. *)
Definition combined_caps (f : log_entry) (referrer useragent : jsstring)
    : gmap nat jsstring :=
  <[8%nat := useragent]> (<[7%nat := referrer]> (entry_caps f)).

(** The replacement of [REGEX_DATE]. *)
Definition date_template : list repl_part :=
  [ReplGroup 1; ReplText (str " "); ReplGroup 2].

Definition sample_entry : log_entry :=
  LogEntry (str "1.2.3.4") (str "-") (str "-")
    (str "10/Oct/2020:13:55:36 -0700") (str "GET")
    (str "/user/repo/main/file.js?x=1") (str "HTTP/1.1") (str "200")
    (str "512").

Definition c_colon : char := 58.

(** What [strip_query] keeps of any string: the text before the first
    question mark that no line terminator follows. *)
Fixpoint query_cut (s : jsstring) : jsstring :=
  match s with
  | [] => []
  | c :: s' =>
      if (c =? c_qmark) && forallb (fun c => negb (is_line_terminator c)) s'
      then []
      else c :: query_cut s'
  end.

(** No slash of [a] is followed by a digit. *)
Fixpoint no_date_start (a : jsstring) : bool :=
  match a with
  | c :: a' =>
      match a' with
      | c' :: _ => negb ((c =? c_slash) && is_digit c') && no_date_start a'
      | [] => true
      end
  | [] => true
  end.

(** The text chunks as events of the stream. *)
Definition readables (cs : list jsstring) : list tail_event :=
  (fun c => OnReadable (Some c)) <$> cs.

(** The complete lines of a stream, and what is left after them. *)
Definition stream_lines (s : jsstring) : list jsstring := (pop (split c_lf s)).1.
Definition stream_rest (s : jsstring) : jsstring := (pop (split c_lf s)).2.

(** The fields of a matched line: tokens without white space, around a
    date without a line terminator. *)
Definition entry_shape (f : log_entry) : Prop :=
  token (le_ip f) /\ token (le_ident f) /\ token (le_user f)
  /\ (le_date f <> [] /\ Forall dot_ok (le_date f))
  /\ token (le_method f) /\ token (le_path f) /\ token (le_protocol f)
  /\ token (le_status f) /\ token (le_bytes f).

(** An ASCII letter. *)
Definition is_letter (c : char) : bool :=
  ((65 <=? c) && (c <=? 90)) || ((97 <=? c) && (c <=? 122)).

(** A URL at the mirror: the scheme http or https and the host rawgit.com
    or rawgithub.com, in any case, and the slash that begins the path. *)
Definition mirror_url (u : jsstring) : Prop :=
  exists pre t,
    u = pre ++ t
    /\ (ieq pre (str "http://rawgit.com/")
        \/ ieq pre (str "https://rawgit.com/")
        \/ ieq pre (str "http://rawgithub.com/")
        \/ ieq pre (str "https://rawgithub.com/")).

Definition other_entry : log_entry :=
  LogEntry (str "10.0.0.7") (str "-") (str "alice")
    (str "10/Oct/2020:13:55:36 -0700") (str "POST")
    (str "/user/repo/main/file.js?x=1") (str "HTTP/2.0") (str "200")
    (str "512").

(** * The matcher and its relational semantics *)

Section MatcherTheory.

Variable icase : bool.

Lemma star_loop_sound g r :
  (forall k s x, rmatch icase r k s = Some x ->
     exists s', rmatches icase r s s' /\ k s' = Some x) ->
  forall fuel k s x,
    star_loop g (rmatch icase r) k fuel s = Some x ->
    exists s', rmatches icase (RStar g r) s s' /\ k s' = Some x.
Proof.
  intros IHr fuel. induction fuel as [|fuel IH]; intros k s x H; simpl in H.
  - exists s. split; [constructor | assumption].
  - assert (Hbody : forall y,
      rmatch icase r (fun s' =>
        if (length (rest s') <? length (rest s))%nat
        then star_loop g (rmatch icase r) k fuel s' else None) s = Some y ->
      exists s', rmatches icase (RStar g r) s s' /\ k s' = Some y).
    { intros y Hy. apply IHr in Hy as (s1 & Hm & Hk).
      destruct (Nat.ltb_spec (length (rest s1)) (length (rest s))) as [Hlt|];
        [|discriminate].
      apply IH in Hk as (s2 & Hm2 & Hk2).
      exists s2. split; [|assumption]. eapply M_star_step; eassumption. }
    destruct g.
    + destruct (rmatch icase r _ s) as [y|] eqn:E.
      * inversion H; subst. apply Hbody. reflexivity.
      * exists s. split; [constructor | assumption].
    + destruct (k s) as [y|] eqn:E.
      * inversion H; subst. exists s. split; [constructor | assumption].
      * apply Hbody. assumption.
Qed.

(** Soundness: a result of the matcher comes from a match of the pattern
    followed by a success of the continuation. *)
Lemma rmatch_sound r :
  forall k s x, rmatch icase r k s = Some x ->
    exists s', rmatches icase r s s' /\ k s' = Some x.
Proof.
  induction r as [|cs|r1 IH1 r2 IH2|r1 IH1 r2 IH2|g r IH|n r IH| |];
    intros k s x H; simpl in H.
  - exists s. split; [constructor | assumption].
  - destruct s as [[|c t] i cp]; simpl in H; [discriminate|].
    destruct (cset_match icase cs c) eqn:E; [|discriminate].
    eexists. split; [constructor; exact E | exact H].
  - apply IH1 in H as (s1 & Hm1 & H). apply IH2 in H as (s2 & Hm2 & H).
    exists s2. split; [econstructor; eassumption | assumption].
  - destruct (rmatch icase r1 k s) as [y|] eqn:E.
    + inversion H; subst. apply IH1 in E as (s1 & Hm & Hk).
      exists s1. split; [apply M_alt_l; assumption | assumption].
    + apply IH2 in H as (s1 & Hm & Hk).
      exists s1. split; [apply M_alt_r; assumption | assumption].
  - eapply star_loop_sound; eassumption.
  - apply IH in H as (s1 & Hm & Hk).
    eexists. split; [constructor; eassumption | assumption].
  - destruct (Nat.eqb_spec (idx s) 0); [|discriminate].
    exists s. split; [constructor; assumption | assumption].
  - destruct (rest s) eqn:E; [|discriminate].
    exists s. split; [constructor; assumption | assumption].
Qed.

Lemma star_loop_complete g r :
  (forall s s' k, rmatches icase r s s' -> is_Some (k s') ->
     is_Some (rmatch icase r k s)) ->
  forall s s', rmatches icase (RStar g r) s s' ->
  forall k fuel, is_Some (k s') -> (length (rest s) <= fuel)%nat ->
    is_Some (star_loop g (rmatch icase r) k fuel s).
Proof.
  intros IHr s s' H. remember (RStar g r) as rr eqn:Hrr.
  induction H as [| | | | |g' r' s|g' r' s s1 s2 H1 _ Hlt H2 IH2| | |];
    try discriminate; inversion Hrr; subst; intros k fuel Hk Hfuel.
  - destruct fuel as [|fuel]; simpl; [assumption|].
    destruct g.
    + destruct (rmatch icase r _ s); [eauto | assumption].
    + destruct Hk as [y ->]. eauto.
  - destruct fuel as [|fuel]; [lia|]. simpl.
    assert (Hbody : is_Some (rmatch icase r (fun s' =>
        if (length (rest s') <? length (rest s))%nat
        then star_loop g (rmatch icase r) k fuel s' else None) s)).
    { apply (IHr _ _ _ H1).
      destruct (Nat.ltb_spec (length (rest s1)) (length (rest s))); [|lia].
      apply IH2; [reflexivity | assumption | lia]. }
    destruct g.
    + destruct Hbody as [y ->]. eauto.
    + destruct (k s); [eauto | assumption].
Qed.

(** Completeness: when the pattern has a match after which the
    continuation succeeds, the matcher succeeds. *)
Lemma rmatch_complete r :
  forall s s' k, rmatches icase r s s' -> is_Some (k s') ->
    is_Some (rmatch icase r k s).
Proof.
  induction r as [|cs|r1 IH1 r2 IH2|r1 IH1 r2 IH2|g r IH|n r IH| |];
    intros s s' k H Hk.
  - inversion H; subst. assumption.
  - inversion H as [|cs' c t i cp Hc| | | | | | | |]; subst. simpl.
    rewrite Hc. assumption.
  - inversion H; subst. simpl. eapply IH1; [eassumption|].
    eapply IH2; eassumption.
  - simpl. inversion H; subst.
    + destruct (IH1 _ _ _ H4 Hk) as [y ->]. eauto.
    + destruct (rmatch icase r1 k s); [eauto|]. eapply IH2; eassumption.
  - simpl. eapply star_loop_complete; eauto.
  - inversion H; subst. simpl. eapply IH; [eassumption|]. assumption.
  - inversion H as [| | | | | | | |s0 Hi|]; subst. simpl. rewrite Hi. assumption.
  - inversion H as [| | | | | | | | |s0 Hr]; subst. simpl. rewrite Hr. assumption.
Qed.

(** A match consumes a prefix of the input and advances the index by its
    length. *)
Lemma rmatches_span r s s' :
  rmatches icase r s s' ->
  exists w, rest s = w ++ rest s' /\ idx s' = (idx s + length w)%nat.
Proof.
  induction 1 as [s|cs c t i cp Hc|r1 r2 s s1 s2 _ IH1 _ IH2
                  |r1 r2 s s' _ IH|r1 r2 s s' _ IH|g r s
                  |g r s s1 s2 _ IH1 _ _ IH2|n r s s' _ IH|s Hi|s Hr].
  - exists []. simpl. split; [reflexivity | lia].
  - exists [c]. simpl. split; [reflexivity | lia].
  - destruct IH1 as (w1 & E1 & I1), IH2 as (w2 & E2 & I2).
    exists (w1 ++ w2). rewrite E1, E2, I2, I1, length_app, <- app_assoc.
    split; [reflexivity | lia].
  - assumption.
  - assumption.
  - exists []. simpl. split; [reflexivity | lia].
  - destruct IH1 as (w1 & E1 & I1), IH2 as (w2 & E2 & I2).
    exists (w1 ++ w2). rewrite E1, E2, I2, I1, length_app, <- app_assoc.
    split; [reflexivity | lia].
  - assumption.
  - exists []. simpl. split; [reflexivity | lia].
  - exists []. simpl. split; [reflexivity | lia].
Qed.

Lemma consumed_app (w t' : jsstring) i cp j cp' :
  consumed (MState (w ++ t') i cp) (MState t' j cp') = w.
Proof.
  unfold consumed. simpl. rewrite length_app.
  replace (length w + length t' - length t')%nat with (length w) by lia.
  apply take_app_length.
Qed.

(** The matches of a starred character class: a run of characters of the
    class. *)
Lemma star_chars_inv g cs t i cp s' :
  rmatches icase (RStar g (RChar cs)) (MState t i cp) s' ->
  exists w t', t = w ++ t' /\ s' = MState t' (i + length w) cp
    /\ Forall (fun c => cset_match icase cs c = true) w.
Proof.
  intros H. remember (RStar g (RChar cs)) as rr eqn:Hrr.
  remember (MState t i cp) as s eqn:Hs. revert t i Hs.
  induction H as [| | | | |g' r' s|g' r' s s1 s2 H1 _ Hlt H2 IH2| | |];
    try discriminate; inversion Hrr; subst; intros t i ->.
  - exists [], t. rewrite Nat.add_0_r. repeat split. constructor.
  - inversion H1 as [|cs' c t1 i1 cp1 Hc| | | | | | | |]; subst.
    destruct (IH2 eq_refl _ _ eq_refl) as (w & t' & -> & -> & Hw).
    exists (c :: w), t'. simpl. rewrite Nat.add_succ_r.
    repeat split. constructor; assumption.
Qed.

Lemma star_chars_intro g cs w t i cp :
  Forall (fun c => cset_match icase cs c = true) w ->
  rmatches icase (RStar g (RChar cs)) (MState (w ++ t) i cp)
    (MState t (i + length w) cp).
Proof.
  intros Hw. revert i. induction Hw as [|c w Hc _ IH]; intros i; simpl.
  - rewrite Nat.add_0_r. constructor.
  - eapply M_star_step.
    + constructor. exact Hc.
    + simpl. rewrite length_app. lia.
    + rewrite <- Nat.add_succ_comm. apply IH.
Qed.

Lemma plus_chars_intro g cs w t i cp :
  w <> [] ->
  Forall (fun c => cset_match icase cs c = true) w ->
  rmatches icase (RPlus g (RChar cs)) (MState (w ++ t) i cp)
    (MState t (i + length w) cp).
Proof.
  intros Hne Hw. destruct Hw as [|c w Hc Hw]; [congruence|].
  unfold RPlus. simpl. eapply M_seq.
  - constructor. exact Hc.
  - rewrite <- Nat.add_succ_comm. apply star_chars_intro. assumption.
Qed.

(** A literal matches the texts that agree with it character by
    character. *)
Lemma lit_intro l w t i cp :
  Forall2 (fun c p => cset_match icase (CsChar p) c = true) w l ->
  rmatches icase (RLit l) (MState (w ++ t) i cp) (MState t (i + length w) cp).
Proof.
  intros H. revert i. induction H as [|c p w l Hc _ IH]; intros i; simpl.
  - rewrite Nat.add_0_r. constructor.
  - eapply M_seq; [constructor; exact Hc|].
    rewrite <- Nat.add_succ_comm. apply IH.
Qed.

End MatcherTheory.

(** ** Searching a match *)

(** A pattern that begins with [^] matches at index 0 or not at all. *)
Lemma exec_from_bol re r i s :
  source re = RSeq RBol r -> exec_from re (S i) s = None.
Proof.
  intros Hsrc. revert i. induction s as [|c s IH]; intros i; simpl;
    rewrite Hsrc; simpl; [reflexivity | apply IH].
Qed.

Lemma test_anchored re r s :
  source re = RSeq RBol r ->
  test re s = true <->
  exists s', rmatches (ignoreCase re) r (MState s 0 ∅) s'.
Proof.
  intros Hsrc. unfold test, exec.
  assert (Hex : exec_from re 0 s =
    match rmatch (ignoreCase re) r Some (MState s 0 ∅) with
    | Some e => Some (MatchResult 0 (take (length s - length (rest e)) s) (caps e))
    | None => None
    end).
  { destruct s as [|c s]; simpl; rewrite Hsrc; simpl.
    - reflexivity.
    - destruct (rmatch _ r Some _); [reflexivity|].
      eapply exec_from_bol; eassumption. }
  rewrite Hex. split.
  - destruct (rmatch _ r Some _) as [e|] eqn:E; [|discriminate]. intros _.
    apply rmatch_sound in E as (s' & Hm & _). eauto.
  - intros (s' & Hm).
    destruct (rmatch_complete _ r _ _ Some Hm) as [e ->]; eauto.
Qed.

(** ** Inversion of the matches of a pattern *)

Ltac norm_regex H :=
  match type of H with
  | rmatches ?b ?r ?s ?s' =>
      let r' := eval vm_compute in r in
      let b' := eval vm_compute in b in
      change (rmatches b' r' s s') in H
  end.

Ltac inv_matches :=
  repeat match goal with
  | s : mstate |- _ => destruct s
  | H : rmatches _ (RSeq _ _) _ _ |- _ => inversion H; clear H; subst
  | H : rmatches _ REmpty _ _ |- _ => inversion H; clear H; subst
  | H : rmatches _ (RChar _) _ _ |- _ => inversion H; clear H; subst
  | H : rmatches _ (RGroup _ _) _ _ |- _ => inversion H; clear H; subst
  | H : rmatches _ RBol _ _ |- _ => inversion H; clear H; subst
  | H : rmatches _ REol _ _ |- _ => inversion H; clear H; subst
  | H : rmatches _ (RAlt _ _) _ _ |- _ => inversion H; clear H; subst
  | H : rmatches _ (RStar _ (RChar _)) _ _ |- _ =>
      apply star_chars_inv in H; destruct H as (? & ? & ? & ? & ?); subst
  | H : MState _ _ _ = MState _ _ _ |- _ => inversion H; clear H; subst
  | H : set_cap _ _ _ = _ |- _ => unfold set_cap in H; simpl in H
  | H : _ = set_cap _ _ _ |- _ => unfold set_cap in H; simpl in H
  end.

Ltac inv_chars :=
  repeat match goal with
  | H : (_ =? _) = true |- _ => apply N.eqb_eq in H; subst
  | H : negb _ = true |- _ => apply negb_true_iff in H
  end.

Lemma exec_anchored re r s m :
  source re = RSeq RBol r ->
  exec re s = Some m ->
  exists s', rmatches (ignoreCase re) r (MState s 0 ∅) s'
    /\ m_caps m = caps s' /\ m_index m = 0%nat
    /\ m_text m = take (length s - length (rest s')) s.
Proof.
  intros Hsrc. unfold exec.
  destruct s as [|c s]; simpl; rewrite Hsrc; simpl.
  - destruct (rmatch _ r Some _) as [e|] eqn:E; [|discriminate].
    intros [= <-]. apply rmatch_sound in E as (s' & Hm & [= ->]). eauto.
  - destruct (rmatch _ r Some _) as [e|] eqn:E.
    + intros [= <-]. apply rmatch_sound in E as (s' & Hm & [= ->]). eauto.
    + rewrite (exec_from_bol re r) by assumption. discriminate.
Qed.

(** ** The words of a pattern *)

Section Words.
Variable icase : bool.

Lemma wmatch_empty : wmatch icase REmpty [].
Proof. intros t i cp. simpl. rewrite Nat.add_0_r. constructor. Qed.

Lemma wmatch_seq r1 r2 w1 w2 :
  wmatch icase r1 w1 -> wmatch icase r2 w2 ->
  wmatch icase (RSeq r1 r2) (w1 ++ w2).
Proof.
  intros H1 H2 t i cp. rewrite <- app_assoc, length_app, Nat.add_assoc.
  eapply M_seq; [apply H1 | apply H2].
Qed.

Lemma wmatch_alt_l r1 r2 w : wmatch icase r1 w -> wmatch icase (RAlt r1 r2) w.
Proof. intros H t i cp. apply M_alt_l, H. Qed.

Lemma wmatch_alt_r r1 r2 w : wmatch icase r2 w -> wmatch icase (RAlt r1 r2) w.
Proof. intros H t i cp. apply M_alt_r, H. Qed.

Lemma wmatch_opt_some r w : wmatch icase r w -> wmatch icase (ROpt r) w.
Proof. apply wmatch_alt_l. Qed.

Lemma wmatch_opt_none r : wmatch icase (ROpt r) [].
Proof. apply wmatch_alt_r, wmatch_empty. Qed.

Lemma wmatch_lit l w :
  Forall2 (fun c p => cset_match icase (CsChar p) c = true) w l ->
  wmatch icase (RLit l) w.
Proof. intros H t i cp. apply lit_intro, H. Qed.

Lemma wmatch_star_chars g cs w :
  Forall (fun c => cset_match icase cs c = true) w ->
  wmatch icase (RStar g (RChar cs)) w.
Proof. intros H t i cp. apply star_chars_intro, H. Qed.

Lemma wmatch_plus_chars g cs w :
  w <> [] -> Forall (fun c => cset_match icase cs c = true) w ->
  wmatch icase (RPlus g (RChar cs)) w.
Proof. intros Hne H t i cp. apply plus_chars_intro; assumption. Qed.

End Words.

Lemma ieq_lit a l : ieq a l -> wmatch true (RLit l) a.
Proof.
  intros H. apply wmatch_lit. unfold ieq in H.
  revert l H. induction a as [|c a IH]; intros [|p l] H; simpl in H;
    try discriminate; constructor.
  - simpl. apply N.eqb_eq. congruence.
  - apply IH. congruence.
Qed.

Lemma eq_lit icase l : wmatch icase (RLit l) l.
Proof.
  apply wmatch_lit. induction l as [|c l IH]; constructor; [|assumption].
  simpl. destruct icase; apply N.eqb_refl.
Qed.

Lemma ieq_app_r a l1 l2 :
  ieq a (l1 ++ l2) -> exists a1 a2, a = a1 ++ a2 /\ ieq a1 l1 /\ ieq a2 l2.
Proof.
  unfold ieq. revert a. induction l1 as [|p l1 IH]; intros a H; simpl in H.
  - exists [], a. auto.
  - destruct a as [|c a]; [discriminate|]. simpl in H. injection H as Hc H.
    destruct (IH _ H) as (a1 & a2 & -> & H1 & H2).
    exists (c :: a1), a2. simpl. rewrite Hc, H1. auto.
Qed.

(** A singleton literal [0] as a character class. *)
Lemma zeros_class w :
  zeros w -> Forall (fun c => cset_match true (CsChar 48) c = true) w.
Proof.
  intros H. eapply Forall_impl; [exact H|]. intros c ->. reflexivity.
Qed.

Lemma wmatch_zero_groups n w :
  zero_groups n w ->
  wmatch true (RTimes n (RSeq (RPlus true (ch "0")) (lit ":"))) w.
Proof.
  induction 1 as [|n z w Hne Hz _ IH].
  - apply wmatch_empty.
  - rewrite app_assoc. apply wmatch_seq; [|assumption].
    apply wmatch_seq; [|apply eq_lit].
    apply wmatch_plus_chars; [assumption | apply zeros_class; assumption].
Qed.

Lemma wmatch_host h :
  loopback_host h ->
  wmatch true
    (RAlt (lit "localhost")
       (RAlt (lit "127.0.0.1")
          (RCat [ lit "[";
                  RAlt (RTimes 7 (RSeq (RPlus true (ch "0")) (lit ":")))
                       (lit "::");
                  RStar true (ch "0"); lit "1"; ROpt (lit "/128");
                  lit "]" ]))) h.
Proof.
  intros [H|[->|(a & -> & Ha)]].
  - apply wmatch_alt_l, ieq_lit, H.
  - apply wmatch_alt_r, wmatch_alt_l, eq_lit.
  - apply wmatch_alt_r, wmatch_alt_r.
    apply wmatch_seq; [apply eq_lit|].
    destruct Ha as (pre & z & m & -> & Hpre & Hz & Hm).
    rewrite <- !app_assoc.
    apply wmatch_seq.
    { destruct Hpre as [->|Hg].
      - apply wmatch_alt_r, eq_lit.
      - apply wmatch_alt_l, wmatch_zero_groups, Hg. }
    apply wmatch_seq; [apply wmatch_star_chars, zeros_class, Hz|].
    apply wmatch_seq; [apply eq_lit|].
    apply wmatch_seq.
    { destruct Hm as [->| ->]; [apply wmatch_opt_none | apply wmatch_opt_some, eq_lit]. }
    rewrite <- (app_nil_r (str "]")). apply wmatch_seq; [apply eq_lit | apply wmatch_empty].
Qed.

Lemma wmatch_port p :
  port_suffix p -> wmatch true (ROpt (RSeq (lit ":") (RPlus true digit))) p.
Proof.
  intros [->|(ds & -> & Hne & Hd)].
  - apply wmatch_opt_none.
  - apply wmatch_opt_some, wmatch_seq; [apply eq_lit|].
    apply wmatch_plus_chars; assumption.
Qed.

Lemma wmatch_scheme sc :
  ieq sc (str "http") \/ ieq sc (str "https") ->
  wmatch true (RSeq (lit "http") (ROpt (lit "s"))) sc.
Proof.
  intros [H|H].
  - rewrite <- (app_nil_r sc). apply wmatch_seq; [apply ieq_lit, H | apply wmatch_opt_none].
  - apply (ieq_app_r sc (str "http") (str "s")) in H as (a1 & a2 & -> & H1 & H2).
    apply wmatch_seq; [apply ieq_lit, H1 | apply wmatch_opt_some, ieq_lit, H2].
Qed.

Lemma loopback_complete u : loopback_url u -> test REGEX_LOOOPBACK_URL u = true.
Proof.
  intros (sc & h & p & t & -> & Hsc & Hh & Hp).
  apply (test_anchored REGEX_LOOOPBACK_URL _ _ eq_refl).
  exists (MState t (0 + length (sc ++ str "://" ++ h ++ p ++ str "/")) ∅).
  replace (sc ++ str "://" ++ h ++ p ++ str "/" ++ t)
    with ((sc ++ str "://" ++ h ++ p ++ str "/") ++ t)
    by (rewrite <- !app_assoc; reflexivity).
  cut (wmatch true
         (RSeq (RSeq (lit "http") (ROpt (lit "s")))
            (RCat [ lit "://";
               RAlt (lit "localhost")
                 (RAlt (lit "127.0.0.1")
                    (RCat [ lit "[";
                            RAlt (RTimes 7 (RSeq (RPlus true (ch "0")) (lit ":")))
                                 (lit "::");
                            RStar true (ch "0"); lit "1"; ROpt (lit "/128");
                            lit "]" ]));
               ROpt (RSeq (lit ":") (RPlus true digit));
               lit "/" ]))
         (sc ++ str "://" ++ h ++ p ++ str "/")).
  { intros Hw. specialize (Hw t 0%nat ∅).
    inversion Hw as [| |r1 r2 s0 s1 s2 Ha Hb| | | | | | |]; subst.
    inversion Ha; subst.
    simpl. eapply M_seq; [eassumption|]. eapply M_seq; eassumption. }
  apply wmatch_seq; [apply wmatch_scheme, Hsc|].
  apply wmatch_seq; [apply eq_lit|].
  apply wmatch_seq; [apply wmatch_host, Hh|].
  apply wmatch_seq; [apply wmatch_port, Hp|].
  rewrite <- (app_nil_r (str "/")). apply wmatch_seq; [apply eq_lit | apply wmatch_empty].
Qed.

(** ** The shape of an external path *)

Lemma external_sound p : test REGEX_EXTERNAL p = true -> external_shape p.
Proof.
  intros H. apply (test_anchored REGEX_EXTERNAL _ p eq_refl) in H as (s' & H).
  norm_regex H. inv_matches. simpl in *. inv_chars.
  match goal with
  | |- external_shape (_ :: ?c1 :: ?x1 ++ _ :: ?c2 :: ?x2 ++ _ :: ?c3 :: ?x3 ++ _ :: ?c4 :: ?t) =>
      exists (c1 :: x1), (c2 :: x2), (c3 :: x3), c4, t
  end.
  split; [reflexivity|]. repeat (split; [discriminate|]).
  unfold dot_ok.
  repeat (rewrite ?Forall_app, ?Forall_cons; try split);
    try assumption; try apply Forall_nil_2;
    (eapply Forall_impl; [eassumption|]); intros ? ?;
    apply negb_true_iff; assumption.
Qed.

Lemma dot_run w :
  Forall dot_ok w -> Forall (fun c => cset_match false CsDot c = true) w.
Proof.
  intros H. eapply Forall_impl; [exact H|].
  intros c Hc. simpl. unfold dot_ok in Hc. rewrite Hc. reflexivity.
Qed.

Lemma external_complete p : external_shape p -> test REGEX_EXTERNAL p = true.
Proof.
  intros (x1 & x2 & x3 & c & t & -> & N1 & N2 & N3 & Hok).
  rewrite !Forall_app in Hok. destruct Hok as (O1 & O2 & O3 & O4).
  apply (test_anchored REGEX_EXTERNAL _ _ eq_refl).
  eexists. simpl.
  eapply M_seq; [apply (lit_intro false (str "/") [c_slash]); repeat constructor|].
  eapply M_seq; [apply plus_chars_intro; [exact N1 | apply dot_run, O1]|].
  eapply M_seq; [apply (lit_intro false (str "/") [c_slash]); repeat constructor|].
  eapply M_seq; [apply plus_chars_intro; [exact N2 | apply dot_run, O2]|].
  eapply M_seq; [apply (lit_intro false (str "/") [c_slash]); repeat constructor|].
  eapply M_seq; [apply plus_chars_intro; [exact N3 | apply dot_run, O3]|].
  eapply M_seq; [apply (lit_intro false (str "/") [c_slash]); repeat constructor|].
  eapply M_seq; [|constructor].
  apply (plus_chars_intro false true CsDot [c] t); [discriminate | apply dot_run, O4].
Qed.

(** ** Splitting a string *)

Lemma split_nonempty sep s : split sep s <> [].
Proof.
  destruct s as [|c s]; simpl; [discriminate|].
  destruct (c =? sep); [discriminate|]. destruct (split sep s); discriminate.
Qed.

(** The first piece of a split and what follows it. *)
Lemma split_cons_inv sep s w ws :
  split sep s = w :: ws ->
  (sep ∉ w) /\
  match ws with
  | [] => s = w
  | _ :: _ => exists r, s = w ++ sep :: r /\ split sep r = ws
  end.
Proof.
  revert w ws. induction s as [|c s IH]; intros w ws H; simpl in H.
  - inversion H; subst. split; [apply not_elem_of_nil | reflexivity].
  - destruct (N.eqb_spec c sep) as [->|Hne].
    + inversion H; subst. split; [apply not_elem_of_nil|].
      pose proof (split_nonempty sep s).
      destruct (split sep s) eqn:E; [congruence|]. exists s. split; [reflexivity | assumption].
    + destruct (split sep s) as [|w' ws'] eqn:E; [exfalso; eapply split_nonempty; eassumption|].
      inversion H; subst. destruct (IH _ _ eq_refl) as (Hni & Hs).
      split.
      * rewrite elem_of_cons. intros [?|?]; [congruence | tauto].
      * destruct ws as [|w2 ws2].
        -- congruence.
        -- destruct Hs as (r & -> & Hr). exists r. split; [reflexivity | assumption].
Qed.

Lemma segments_first q n :
  (S (S n) <= length (segments q))%nat ->
  exists x r, q = x ++ c_slash :: r /\ x <> [] /\ (S n <= length (segments r))%nat.
Proof.
  unfold segments. remember (split c_slash q) as l eqn:Hl. symmetry in Hl.
  revert q Hl. induction l as [|w ws IH]; intros q Hl Hlen; simpl in Hlen; [lia|].
  apply split_cons_inv in Hl as (_ & Hs).
  destruct ws as [|w2 ws2].
  { rewrite filter_cons in Hlen. destruct (decide (w <> [])); simpl in Hlen; lia. }
  destruct Hs as (r & -> & Hr).
  rewrite filter_cons in Hlen. destruct (decide (w <> [])) as [Hw|Hw].
  - exists w, r. rewrite Hr. simpl in Hlen. repeat split; [assumption | lia].
  - destruct (IH r Hr Hlen) as (x & r' & -> & Hx & Hlen').
    exists (w ++ c_slash :: x), r'. rewrite <- app_assoc. simpl.
    repeat split; [|assumption]. destruct w; discriminate.
Qed.

Lemma segments_some q : (1 <= length (segments q))%nat -> q <> [].
Proof. intros H ->. simpl in H. lia. Qed.

Lemma segments_slash q : segments (c_slash :: q) = segments q.
Proof.
  unfold segments. simpl. rewrite filter_cons.
  destruct (decide ([] <> [])) as [H|H]; [congruence | reflexivity].
Qed.

Lemma segments_shape q :
  (4 <= length (segments (c_slash :: q)))%nat ->
  exists x1 x2 x3 c t,
    c_slash :: q = c_slash :: x1 ++ c_slash :: x2 ++ c_slash :: x3 ++ c_slash :: c :: t
    /\ x1 <> [] /\ x2 <> [] /\ x3 <> [].
Proof.
  rewrite segments_slash. intros H.
  apply segments_first in H as (x1 & r1 & -> & N1 & H).
  apply segments_first in H as (x2 & r2 & -> & N2 & H).
  apply segments_first in H as (x3 & r3 & -> & N3 & H).
  apply segments_some in H. destruct r3 as [|c t]; [exfalso; apply H; reflexivity|].
  exists x1, x2, x3, c, t. repeat split; assumption.
Qed.

(** ** The captures of a match *)

Section Captures.
Variable icase : bool.

Lemma caps_origin r s s' :
  rmatches icase r s s' ->
  forall n w, caps s' !! n = Some w ->
    caps s !! n = Some w \/
    exists body sa sb, body ∈ group_bodies n r
      /\ rmatches icase body sa sb /\ w = consumed sa sb.
Proof.
  induction 1 as [s|cs c t i cp Hc|r1 r2 s s1 s2 _ IH1 _ IH2
                  |r1 r2 s s' _ IH|r1 r2 s s' _ IH|g r s
                  |g r s s1 s2 _ IH1 _ _ IH2|n0 r s s' Hm IH|s Hi|s Hr];
    intros n w Hw; simpl; try (left; assumption).
  - destruct (IH2 _ _ Hw) as [H2|(b & sa & sb & Hin & Hb & ->)].
    + destruct (IH1 _ _ H2) as [H1|(b & sa & sb & Hin & Hb & ->)];
        [left; assumption|].
      right. exists b, sa, sb. rewrite elem_of_app. auto.
    + right. exists b, sa, sb. rewrite elem_of_app. auto.
  - destruct (IH _ _ Hw) as [H1|(b & sa & sb & Hin & Hb & ->)]; [auto|].
    right. exists b, sa, sb. rewrite elem_of_app. auto.
  - destruct (IH _ _ Hw) as [H1|(b & sa & sb & Hin & Hb & ->)]; [auto|].
    right. exists b, sa, sb. rewrite elem_of_app. auto.
  - destruct (IH2 _ _ Hw) as [H2|(b & sa & sb & Hin & Hb & ->)].
    + destruct (IH1 _ _ H2) as [H1|(b & sa & sb & Hin & Hb & ->)]; [auto|].
      right. exists b, sa, sb. auto.
    + right. exists b, sa, sb. simpl in Hin. auto.
  - simpl in Hw. destruct (decide (n0 = n)) as [->|Hne].
    + rewrite lookup_insert_eq in Hw. inversion Hw; subst.
      right. exists r, s, s'. rewrite elem_of_app, list_elem_of_singleton. auto.
    + rewrite lookup_insert_ne in Hw by assumption.
      destruct (IH _ _ Hw) as [H1|(b & sa & sb & Hin & Hb & ->)]; [auto|].
      right. exists b, sa, sb. rewrite elem_of_app. auto.
Qed.

Lemma caps_kept r s s' :
  rmatches icase r s s' ->
  forall n, is_Some (caps s !! n) -> is_Some (caps s' !! n).
Proof.
  induction 1 as [s|cs c t i cp Hc|r1 r2 s s1 s2 _ IH1 _ IH2
                  |r1 r2 s s' _ IH|r1 r2 s s' _ IH|g r s
                  |g r s s1 s2 _ IH1 _ _ IH2|n0 r s s' Hm IH|s Hi|s Hr];
    intros n Hn; simpl; auto.
  destruct (decide (n0 = n)) as [->|Hne].
  - rewrite lookup_insert_eq. eauto.
  - rewrite lookup_insert_ne by assumption. auto.
Qed.

Lemma caps_mandatory r s s' :
  rmatches icase r s s' ->
  forall n, mandatory n r = true -> is_Some (caps s' !! n).
Proof.
  induction 1 as [s|cs c t i cp Hc|r1 r2 s s1 s2 H1 IH1 H2 IH2
                  |r1 r2 s s' _ IH|r1 r2 s s' _ IH|g r s
                  |g r s s1 s2 _ IH1 _ _ IH2|n0 r s s' Hm IH|s Hi|s Hr];
    intros n Hn; simpl in Hn; try discriminate.
  - apply orb_true_iff in Hn as [Hn|Hn]; [|auto].
    eapply caps_kept; [eassumption | auto].
  - apply andb_true_iff in Hn as [Hn _]. auto.
  - apply andb_true_iff in Hn as [_ Hn]. auto.
  - simpl. destruct (decide (n0 = n)) as [->|Hne].
    + rewrite lookup_insert_eq. eauto.
    + rewrite lookup_insert_ne by assumption. apply IH.
      apply orb_true_iff in Hn as [Hn|Hn]; [|assumption].
      apply bool_decide_eq_true in Hn. congruence.
Qed.

(** What a group of one or more characters of a class captures. *)
Lemma plus_chars_consumed g cs sa sb :
  rmatches icase (RPlus g (RChar cs)) sa sb ->
  consumed sa sb <> [] /\
  Forall (fun c => cset_match icase cs c = true) (consumed sa sb).
Proof.
  intros H. unfold RPlus in H. inv_matches.
  change (c :: x ++ x0) with ((c :: x) ++ x0). rewrite consumed_app.
  split; [discriminate | constructor; assumption].
Qed.

End Captures.

Lemma not_space_run icase w :
  Forall (fun c => cset_match icase CsNotSpace c = true) w -> no_space w.
Proof.
  intros H. eapply Forall_impl; [exact H|]. intros c Hc. simpl in Hc.
  apply negb_true_iff in Hc. exact Hc.
Qed.

(** A capture of [REGEX_CLF] by a group of the shape [(\S+)]. *)
Lemma clf_not_space_field line m n :
  group_bodies n (source REGEX_CLF) = [RPlus true not_space] ->
  mandatory n (source REGEX_CLF) = true ->
  exec REGEX_CLF line = Some m ->
  exists w, m_caps m !! n = Some w /\ w <> [] /\ no_space w.
Proof.
  intros Hb Hmand H.
  apply (exec_anchored REGEX_CLF _ _ _ eq_refl) in H as (s' & H & Hc & _).
  rewrite Hc. clear Hc.
  assert (H' : rmatches false (source REGEX_CLF) (MState line 0 ∅) s').
  { eapply M_seq; [constructor; reflexivity | exact H]. }
  destruct (caps_mandatory _ _ _ _ H' n Hmand) as [w Hw].
  exists w. split; [assumption|].
  destruct (caps_origin _ _ _ _ H' _ _ Hw) as [Hw0|(b & sa & sb & Hin & Hm & ->)].
  - simpl in Hw0. rewrite lookup_empty in Hw0. discriminate.
  - rewrite Hb in Hin. apply list_elem_of_singleton in Hin. subst b.
    apply plus_chars_consumed in Hm as [Hne Hall].
    split; [assumption | eapply not_space_run; eassumption].
Qed.

Lemma clf_fields line m :
  exec REGEX_CLF line = Some m ->
  exists g4 g6,
    m_caps m !! 4%nat = Some g4 /\ g4 <> [] /\ no_space g4 /\
    m_caps m !! 6%nat = Some g6 /\ g6 <> [] /\ no_space g6.
Proof.
  intros H.
  destruct (clf_not_space_field line m 4 eq_refl eq_refl H) as (g4 & ? & ? & ?).
  destruct (clf_not_space_field line m 6 eq_refl eq_refl H) as (g6 & ? & ? & ?).
  exists g4, g6. auto 10.
Qed.

(** ** Stripping the query string *)

Lemma before_query_no_qmark s : c_qmark ∉ before_query s.
Proof.
  induction s as [|c s IH]; simpl; [apply not_elem_of_nil|].
  destruct (N.eqb_spec c c_qmark) as [->|Hne]; [apply not_elem_of_nil|].
  rewrite elem_of_cons. intros [?|?]; [congruence | tauto].
Qed.

Lemma exec_query_at_qmark s i :
  Forall dot_ok s ->
  exists cp,
    exec_from REGEX_QUERY i (c_qmark :: s)
    = Some (MatchResult i (c_qmark :: s) cp).
Proof.
  intros Hs. cbn [exec_from].
  assert (Hm : rmatches false (source REGEX_QUERY)
                 (MState (c_qmark :: s) i ∅)
                 (MState [] (S i + length s) ∅)).
  { eapply M_seq; [eapply M_seq; [constructor; reflexivity | constructor]|].
    eapply M_seq.
    - rewrite <- (app_nil_r s) at 1. apply star_chars_intro.
      eapply Forall_impl; [exact Hs|]. intros c Hc. simpl. unfold dot_ok in Hc.
      rewrite Hc. reflexivity.
    - eapply M_seq; constructor. reflexivity. }
  destruct (rmatch_complete false _ _ _ Some Hm) as [e He]; [eauto|].
  change (ignoreCase REGEX_QUERY) with false. rewrite He.
  apply rmatch_sound in He as (s' & Hs' & [= ->]).
  assert (Hrest : rest e = []).
  { clear Hm. cbv [REGEX_QUERY source RCat] in Hs'.
    inversion Hs' as [| |r1 r2 s0 s1 s2 _ Hb| | | | | | |]; subst.
    inversion Hb as [| |r1 r2 s0 s2 s3 _ Hc| | | | | | |]; subst.
    inversion Hc as [| |r1 r2 s0 s3 s4 Hd Hf| | | | | | |]; subst.
    inversion Hf; subst. inversion Hd; subst. assumption. }
  rewrite Hrest. simpl. rewrite take_ge by lia. eauto.
Qed.

Lemma exec_query_miss c s i :
  c <> c_qmark ->
  exec_from REGEX_QUERY i (c :: s) = exec_from REGEX_QUERY (S i) s.
Proof.
  intros Hne. cbn [exec_from].
  replace (rmatch (ignoreCase REGEX_QUERY) (source REGEX_QUERY) Some
             (MState (c :: s) i ∅)) with (@None mstate); [reflexivity|].
  let r := eval vm_compute in (source REGEX_QUERY) in
    change (source REGEX_QUERY) with r.
  simpl. apply N.eqb_neq in Hne. unfold c_qmark in Hne. rewrite Hne. reflexivity.
Qed.

Lemma exec_query s :
  Forall dot_ok s -> forall i,
  match exec_from REGEX_QUERY i s with
  | Some m =>
      exists suf, s = before_query s ++ c_qmark :: suf
        /\ m_index m = (i + length (before_query s))%nat
        /\ m_text m = c_qmark :: suf
  | None => before_query s = s
  end.
Proof.
  induction 1 as [|c s Hc Hs IH]; intros i.
  - reflexivity.
  - cbn [before_query]. destruct (N.eqb_spec c c_qmark) as [->|Hne].
    + destruct (exec_query_at_qmark s i Hs) as (cp & ->).
      exists s. simpl. rewrite Nat.add_0_r. auto.
    + rewrite exec_query_miss by assumption. specialize (IH (S i)).
      destruct (exec_from REGEX_QUERY (S i) s) as [m|].
      * destruct IH as (suf & E & Hi & Ht). exists suf.
        simpl. split; [f_equal; exact E|]. split; [lia | exact Ht].
      * f_equal. exact IH.
Qed.

(** On a URL without a line terminator, [strip_query] removes everything
    from the first question mark on. *)
Lemma strip_query_spec s :
  Forall dot_ok s -> strip_query s = before_query s.
Proof.
  intros Hs. unfold strip_query, replace, exec.
  pose proof (exec_query s Hs 0) as H.
  destruct (exec_from REGEX_QUERY 0 s) as [m|]; [|congruence].
  destruct H as (suf & E & Hi & Ht). rewrite Hi, Ht. simpl.
  rewrite drop_ge.
  - rewrite app_nil_r. rewrite E at 2. apply take_app_length.
  - rewrite E at 1. rewrite length_app. simpl. lia.
Qed.

(** ** What an accepted line tells *)

Section Accepted.
Variable conf : config.
Variable Date_parse : jsstring -> option Z.

(** What a call of the collector tells about the line. *)
Lemma parseLine_forwarded line e :
  parseLine conf Date_parse line = Normal (Some e) ->
  exists m p r,
    exec REGEX_CLF line = Some m
    /\ strict_eq (m_caps m !! 5%nat) (str "403") = false
    /\ m_caps m !! 4%nat = Some p
    /\ m_caps m !! 7%nat = Some r
    /\ ev_path e = strip_query p
    /\ ev_referrer e = strip_query r
    /\ ev_size e = number_or_zero (parseInt10 (m_caps m !! 6%nat))
    /\ truthy_get (statsIgnorePaths conf) (strip_query p) = false
    /\ test REGEX_EXTERNAL (strip_query p) = true
    /\ test REGEX_LOOOPBACK_URL (strip_query r) = false
    /\ (test REGEX_RAWGIT (strip_query r)
        && negb (test REGEX_EXTERNAL (strip_query r))) = false.
Proof.
  unfold parseLine. intros H.
  destruct (exec REGEX_CLF line) as [m|]; [|discriminate].
  destruct (strict_eq _ _) eqn:E403; [discriminate|].
  destruct (m_caps m !! 4%nat) as [p|] eqn:E4; [|discriminate]. simpl in H.
  fold (strip_query p) in H.
  destruct (truthy_get _ _) eqn:Eign; [discriminate|].
  destruct (test REGEX_EXTERNAL (strip_query p)) eqn:Eext; [|discriminate].
  simpl in H.
  destruct (m_caps m !! 7%nat) as [r|] eqn:E7; [|discriminate]. simpl in H.
  fold (strip_query r) in H.
  destruct (test REGEX_LOOOPBACK_URL _) eqn:Elo; [discriminate|].
  destruct (test REGEX_RAWGIT _ && _) eqn:Eraw; [discriminate|].
  destruct (m_caps m !! 2%nat) as [d|]; [|discriminate]. simpl in H.
  injection H as <-.
  exists m, p, r. simpl. repeat split; try reflexivity; assumption.
Qed.

Lemma parsed_field_exec line n w :
  parsed_field line n = Some w ->
  exists m, exec REGEX_CLF line = Some m /\ m_caps m !! n = Some w.
Proof.
  unfold parsed_field. destruct (exec REGEX_CLF line) as [m|]; simpl;
    [eauto | discriminate].
Qed.

Lemma parsed_path_no_space line p :
  parsed_field line 4 = Some p -> p <> [] /\ no_space p.
Proof.
  intros H. apply parsed_field_exec in H as (m & Hm & Hp).
  destruct (clf_fields _ _ Hm) as (g4 & g6 & H4 & ? & ? & _).
  rewrite Hp in H4. injection H4 as <-. auto.
Qed.

End Accepted.

Lemma no_space_dot_ok w : no_space w -> Forall dot_ok w.
Proof.
  intros H. eapply Forall_impl; [exact H|]. intros c Hc. unfold dot_ok.
  unfold is_space in Hc. apply orb_false_iff in Hc as [_ Hc]. exact Hc.
Qed.

Lemma before_query_Forall (P : char -> Prop) s :
  Forall P s -> Forall P (before_query s).
Proof.
  induction 1 as [|c s Hc _ IH]; simpl; [constructor|].
  destruct (c =? c_qmark); constructor; assumption.
Qed.

Lemma slashes_app a b : slashes (a ++ b) = (slashes a + slashes b)%nat.
Proof. unfold slashes. rewrite filter_app, length_app. reflexivity. Qed.

Lemma slashes_cons_slash p : slashes (c_slash :: p) = S (slashes p).
Proof.
  unfold slashes. rewrite filter_cons.
  destruct (decide (c_slash = c_slash)); [reflexivity | congruence].
Qed.

Lemma external_shape_slashes p :
  external_shape p -> head p = Some c_slash /\ (4 <= slashes p)%nat.
Proof.
  intros (x1 & x2 & x3 & c & t & -> & _). split; [reflexivity|].
  rewrite slashes_cons_slash, slashes_app, slashes_cons_slash, slashes_app,
    slashes_cons_slash, slashes_app, slashes_cons_slash. lia.
Qed.

(** A referrer of the mirror never has the shape of an external path. *)
Lemma rawgit_not_external u :
  test REGEX_RAWGIT u = true -> test REGEX_EXTERNAL u = false.
Proof.
  intros H. destruct (test REGEX_EXTERNAL u) eqn:E; [|reflexivity].
  apply external_sound in E as (x1 & x2 & x3 & c & t & -> & _).
  apply (test_anchored REGEX_RAWGIT _ _ eq_refl) in H as (s' & H).
  norm_regex H.
  inversion H as [| |r1 r2 s0 s1 s2 Ha _| | | | | | |]; subst.
  inversion Ha as [| |r1 r2 s0 s3 s4 Hb _| | | | | | |]; subst.
  inversion Hb as [|cs c0 t0 i0 cp0 Hc| | | | | | | |]; subst.
  vm_compute in Hc. discriminate Hc.
Qed.

Lemma trim_start_no_space b : b <> [] -> no_space b -> trim_start b = b.
Proof.
  intros Hne Hb. destruct Hb as [|c b Hc _]; [done|].
  simpl. rewrite Hc. reflexivity.
Qed.

Lemma decimal_from_nonneg ds acc :
  (0 <= acc)%Z ->
  (0 <= fold_left (fun acc c => (10 * acc + digit_value c)%Z) ds acc)%Z.
Proof.
  revert acc. induction ds as [|c ds IH]; intros acc Hacc; simpl; [assumption|].
  apply IH. unfold digit_value. lia.
Qed.

Lemma decimal_nonneg ds : (0 <= decimal ds)%Z.
Proof. apply decimal_from_nonneg. lia. Qed.

Lemma digits_prefix_app ds rest :
  Forall (fun c => is_digit c = true) ds ->
  (forall c, head rest = Some c -> is_digit c = false) ->
  digits_prefix (ds ++ rest) = ds.
Proof.
  intros Hd Hr. induction Hd as [|c ds Hc _ IH]; simpl.
  - destruct rest as [|c rest]; [reflexivity|]. simpl.
    rewrite (Hr c eq_refl). reflexivity.
  - rewrite Hc, IH. reflexivity.
Qed.

(** Both zeros are falsy. *)
Lemma to_number_zero negative :
  number_or_zero (to_number negative 0) = Int 0.
Proof. destruct negative; reflexivity. Qed.

Lemma to_number_exact negative m :
  (0 < m <= 2 ^ 53)%Z ->
  to_number negative m = Int (if negative then (- m)%Z else m).
Proof.
  intros [Hpos Hle]. unfold to_number.
  destruct (Z.eqb_spec m 0%Z) as [->|_]; [lia|].
  destruct (Z.eq_dec m (2 ^ 53)%Z) as [->|Hne].
  - destruct negative; vm_compute; reflexivity.
  - assert (Hlog : (Z.log2 m < 53)%Z) by (apply Z.log2_lt_pow2; lia).
    cbv zeta.
    destruct (Z.leb_spec (Z.log2 m - 52)%Z 0%Z) as [_|]; [|lia].
    destruct (Z.leb_spec (2 ^ 1024)%Z m) as [Hbig|_]; [|reflexivity].
    exfalso. assert ((2 ^ 53 < 2 ^ 1024)%Z) by (apply Z.pow_lt_mono_r; lia).
    lia.
Qed.

Lemma to_number_rounded negative m k q r :
  (0 < k)%Z -> m = (q * 2 ^ k + r)%Z ->
  (2 ^ 52 <= q < 2 ^ 53)%Z -> (0 <= r < 2 ^ k)%Z ->
  to_number negative m
  = if (2 ^ 1024 <=? round_even q k r)%Z then Infinity negative
    else Int (if negative then (- round_even q k r)%Z else round_even q k r).
Proof.
  intros Hk Hm Hq Hr.
  assert (Hp : (0 < 2 ^ k)%Z) by (apply Z.pow_pos_nonneg; lia).
  assert (Hlog : Z.log2 m = (52 + k)%Z).
  { apply Z.log2_unique; [lia|].
    replace (Z.succ (52 + k)) with (53 + k)%Z by lia.
    rewrite !Z.pow_add_r by lia. subst m.
    change (2 ^ 52)%Z with 4503599627370496%Z in *.
    change (2 ^ 53)%Z with 9007199254740992%Z in *.
    generalize dependent (2 ^ k)%Z. intros P HP Hr. nia. }
  assert (Hdiv : (m / 2 ^ k)%Z = q)
    by (symmetry; apply (Z.div_unique_pos m (2 ^ k)%Z q r); lia).
  assert (Hmod : (m mod 2 ^ k)%Z = r)
    by (symmetry; apply (Z.mod_unique_pos m (2 ^ k)%Z q r); lia).
  unfold to_number, round_even.
  destruct (Z.eqb_spec m 0%Z) as [E|_]; [nia|].
  cbv zeta. rewrite Hlog.
  replace (52 + k - 52)%Z with k by lia.
  destruct (Z.leb_spec k 0%Z) as [|_]; [lia|].
  rewrite Hdiv, Hmod.
  destruct ((2 ^ k <? 2 * r)%Z || ((2 * r =? 2 ^ k)%Z && Z.odd q));
    reflexivity.
Qed.

(** The rounded value is the nearest multiple. *)
Lemma round_even_nearest q k r :
  (0 < k)%Z -> (0 <= r < 2 ^ k)%Z ->
  (2 * Z.abs (round_even q k r - (q * 2 ^ k + r)) <= 2 ^ k)%Z.
Proof.
  intros Hk Hr. unfold round_even.
  destruct (Z.ltb_spec (2 ^ k)%Z (2 * r)%Z); cbn [orb].
  - lia.
  - destruct (Z.eqb_spec (2 * r)%Z (2 ^ k)%Z); cbn [andb]; [destruct (Z.odd q)|];
      lia.
Qed.

Lemma to_number_not_negative m :
  (0 <= m)%Z -> not_negative (number_or_zero (to_number false m)).
Proof.
  intros Hm. unfold to_number.
  destruct (Z.eqb_spec m 0%Z) as [_|Hne]; [simpl; lia|].
  cbv zeta.
  set (v := if (Z.log2 m - 52 <=? 0)%Z then m else _).
  assert (Hv : (0 <= v)%Z).
  { subst v. destruct (Z.log2 m - 52 <=? 0)%Z eqn:Ek; [exact Hm|].
    apply Z.leb_gt in Ek.
    assert (Hp : (0 < 2 ^ (Z.log2 m - 52))%Z) by (apply Z.pow_pos_nonneg; lia).
    assert (Hq : (0 <= m / 2 ^ (Z.log2 m - 52))%Z) by (apply Z.div_pos; lia).
    destruct (_ || _); nia. }
  destruct (2 ^ 1024 <=? v)%Z; [reflexivity|].
  simpl. destruct (v =? 0)%Z; simpl; lia.
Qed.

(** What [parseInt] reads in a field without white space: a sign, the
    digits [ds], and a rest that it ignores. *)
Lemma parseInt10_field b ds rest :
  b <> [] -> no_space b ->
  unsigned_part b = ds ++ rest ->
  Forall (fun c => is_digit c = true) ds ->
  (forall c, head rest = Some c -> is_digit c = false) ->
  parseInt10 (Some b)
  = match ds with
    | [] => NaN
    | _ => to_number (negative_field b) (decimal ds)
    end.
Proof.
  intros Hne Hb Hu Hd Hr. unfold parseInt10. simpl default.
  rewrite (trim_start_no_space b Hne Hb).
  destruct b as [|c b]; [done|]. clear Hne Hb.
  unfold unsigned_part in Hu. cbn [negative_field].
  destruct (c =? c_minus); cbn [orb] in Hu.
  - rewrite Hu, (digits_prefix_app _ _ Hd Hr). destruct ds; reflexivity.
  - destruct (c =? c_plus); rewrite Hu, (digits_prefix_app _ _ Hd Hr);
      destruct ds; reflexivity.
Qed.

Lemma digits_prefix_digits s :
  Forall (fun c => is_digit c = true) (digits_prefix s).
Proof.
  induction s as [|c s IH]; simpl; [constructor|].
  destruct (is_digit c) eqn:E; constructor; assumption.
Qed.

Lemma digits_prefix_split s :
  exists rest,
    s = digits_prefix s ++ rest
    /\ forall c, head rest = Some c -> is_digit c = false.
Proof.
  induction s as [|c s (rest & E & Hr)]; simpl.
  - exists []. split; [reflexivity | discriminate].
  - destruct (is_digit c) eqn:Ec.
    + exists rest. split; [simpl; f_equal; exact E | exact Hr].
    + exists (c :: s). split; [reflexivity|]. intros c' [= <-]. exact Ec.
Qed.

(** ** The line splitter *)

Lemma split_line l x :
  c_lf ∉ l -> split c_lf (l ++ c_lf :: x) = l :: split c_lf x.
Proof.
  induction l as [|c l IH]; intros Hl; simpl.
  - reflexivity.
  - apply not_elem_of_cons in Hl as [Hc Hl].
    destruct (N.eqb_spec c c_lf) as [->|_]; [done|].
    rewrite (IH Hl). reflexivity.
Qed.

Lemma split_lines ls x :
  Forall (fun l => c_lf ∉ l) ls ->
  split c_lf (concat (map (fun l => l ++ [c_lf]) ls) ++ x) = ls ++ split c_lf x.
Proof.
  induction 1 as [|l ls Hl _ IH]; simpl; [reflexivity|].
  rewrite <- !app_assoc. simpl. rewrite (split_line _ _ Hl), IH. reflexivity.
Qed.

Lemma split_no_sep l : c_lf ∉ l -> split c_lf l = [l].
Proof.
  induction l as [|c l IH]; intros Hl; simpl; [reflexivity|].
  apply not_elem_of_cons in Hl as [Hc Hl].
  destruct (N.eqb_spec c c_lf) as [->|_]; [done|].
  rewrite (IH Hl). reflexivity.
Qed.

(** Every string is its lines, each with its terminator, and a rest
    without a terminator; [split] returns the lines and that rest. *)
Lemma split_unsplit s :
  exists ls o,
    split c_lf s = ls ++ [o] /\ s = unsplit ls o
    /\ Forall (fun l => c_lf ∉ l) ls /\ c_lf ∉ o.
Proof.
  induction s as [|c s (ls & o & Hsp & Hs & Hls & Ho)]; simpl.
  - exists [], []. repeat split; [constructor | apply not_elem_of_nil].
  - destruct (N.eqb_spec c c_lf) as [->|Hne].
    + exists ([] :: ls), o. rewrite Hsp. repeat split.
      * rewrite Hs at 1. reflexivity.
      * constructor; [apply not_elem_of_nil | assumption].
      * assumption.
    + rewrite Hsp. destruct ls as [|l ls]; simpl.
      * exists [], (c :: o). unfold unsplit in *. simpl in *. subst s.
        repeat split; [constructor|].
        apply not_elem_of_cons. auto.
      * exists ((c :: l) :: ls), o. unfold unsplit in *. simpl in *.
        apply Forall_cons in Hls as [Hl Hls].
        repeat split.
        -- rewrite Hs at 1. reflexivity.
        -- constructor; [apply not_elem_of_cons; auto | assumption].
        -- assumption.
Qed.

Lemma pop_snoc ls (o : jsstring) : pop (ls ++ [o]) = (ls, o).
Proof.
  unfold pop. rewrite removelast_last.
  rewrite last_snoc. reflexivity.
Qed.

Lemma split_chunk_text o c :
  split_chunk o (Some c) = pop (split c_lf (o ++ c)).
Proof. reflexivity. Qed.

(** The lines of a stream do not depend on the chunks it comes in. *)
Lemma feed_stream cs : forall o,
  c_lf ∉ o ->
  feed o (Some <$> cs) = pop (split c_lf (o ++ concat cs)).
Proof.
  induction cs as [|c cs IH]; intros o Ho.
  - simpl. rewrite app_nil_r, (split_no_sep _ Ho). reflexivity.
  - cbn [fmap list_fmap feed concat]. rewrite split_chunk_text.
    destruct (split_unsplit (o ++ c)) as (ls & o1 & Hsp & Hs & Hls & Ho1).
    rewrite Hsp, pop_snoc, (IH _ Ho1).
    rewrite app_assoc, Hs. unfold unsplit. rewrite <- app_assoc.
    rewrite (split_lines _ _ Hls).
    destruct (split_unsplit (o1 ++ concat cs)) as (ls2 & o2 & Hsp2 & _).
    rewrite Hsp2, pop_snoc, app_assoc, pop_snoc. reflexivity.
Qed.

(** ** The supervision *)

Section Supervision.
Variable conf : config.
Variable Date_parse : jsstring -> option Z.

Lemma handle_spawned logPath st ev :
  spawned (handle conf Date_parse logPath st ev)
  = spawned st ++ match ev with OnExit => [Spawn 0 logPath] | _ => [] end.
Proof.
  destruct ev as [| |chunk]; unfold handle.
  - simpl. rewrite app_nil_r. reflexivity.
  - reflexivity.
  - destruct (split_chunk (overflow st) chunk) as [lines o'].
    destruct (parse_lines conf Date_parse lines (logged st)) as [lg c].
    simpl. rewrite app_nil_r. reflexivity.
Qed.

(** Every launch after the first asks for no scrollback, and there is one
    for each exit that the module lives to see. *)
Lemma run_spawned logPath evs : forall st,
  exists n,
    spawned (run conf Date_parse logPath st evs)
    = spawned st ++ replicate n (Spawn 0 logPath)
    /\ (n <= exits evs)%nat
    /\ (uncaught (run conf Date_parse logPath st evs) = None -> n = exits evs).
Proof.
  induction evs as [|ev evs IH]; intros st.
  - exists 0%nat. simpl. rewrite app_nil_r. auto.
  - cbn [run]. destruct (uncaught st) eqn:Eu.
    + exists 0%nat. simpl. rewrite app_nil_r, Eu.
      repeat split; [lia | discriminate].
    + destruct (IH (handle conf Date_parse logPath st ev)) as (n & Hsp & Hle & Hn).
      rewrite Hsp, handle_spawned, <- app_assoc.
      destruct ev as [| |chunk]; cbn [exits].
      * exists n. auto.
      * exists (S n). repeat split; [lia | auto].
      * exists n. auto.
Qed.

Lemma parse_lines_logged (P : AcceptedEvent -> Prop) :
  (forall line e, parseLine conf Date_parse line = Normal (Some e) -> P e) ->
  forall lines lg,
    Forall P lg -> Forall P (parse_lines conf Date_parse lines lg).1.
Proof.
  intros HP lines. induction lines as [|l lines IH]; intros lg Hlg; simpl.
  - assumption.
  - destruct (parseLine conf Date_parse l) as [[e|]|err] eqn:E; simpl.
    + apply IH. apply Forall_app. split; [assumption|].
      constructor; [eapply HP; eassumption | constructor].
    + apply IH. assumption.
    + assumption.
Qed.

Lemma handle_logged (P : AcceptedEvent -> Prop) logPath st ev :
  (forall line e, parseLine conf Date_parse line = Normal (Some e) -> P e) ->
  Forall P (logged st) ->
  Forall P (logged (handle conf Date_parse logPath st ev)).
Proof.
  intros HP Hst. destruct ev as [| |chunk]; unfold handle;
    [assumption | assumption |].
  destruct (split_chunk (overflow st) chunk) as [lines o'].
  pose proof (parse_lines_logged P HP lines (logged st) Hst) as H.
  destruct (parse_lines conf Date_parse lines (logged st)) as [lg c].
  exact H.
Qed.

Lemma run_logged (P : AcceptedEvent -> Prop) logPath evs :
  (forall line e, parseLine conf Date_parse line = Normal (Some e) -> P e) ->
  forall st, Forall P (logged st) ->
    Forall P (logged (run conf Date_parse logPath st evs)).
Proof.
  intros HP. induction evs as [|ev evs IH]; intros st Hst; cbn [run].
  - assumption.
  - destruct (uncaught st); [assumption|].
    apply IH, handle_logged; assumption.
Qed.

Lemma init_logged existsSync : logged (init conf existsSync) = [].
Proof.
  unfold init. destruct (upstreamRequestLog conf) as [p|]; [|reflexivity].
  destruct (bool_decide (p = []) || negb (existsSync p)); reflexivity.
Qed.

End Supervision.

Lemma feed_app cs : forall o cs',
  feed o (cs ++ cs')
  = ((feed o cs).1 ++ (feed (feed o cs).2 cs').1, (feed (feed o cs).2 cs').2).
Proof.
  induction cs as [|c cs IH]; intros o cs'; cbn [feed app fst snd].
  - destruct (feed o cs'); reflexivity.
  - destruct (split_chunk o c) as [l1 o1]. rewrite IH.
    destruct (feed o1 cs) as [l2 o2]. cbn [fst snd].
    destruct (feed o2 cs') as [l3 o3]. cbn [fst snd].
    rewrite app_assoc. reflexivity.
Qed.

(** * The properties of the specification *)

Section Claims.

Variable conf : config.
Variable Date_parse : jsstring -> option Z.

(** C3, as amended: for every parsed request, when the query-stripped path
    is in the ignore set, or has not the external shape (a slash, three
    non-empty runs each followed by a slash, one more character; a run may
    hold slashes of its own), the request is never forwarded; a path
    that begins with a slash and has at least four non-empty segments
    between slashes has the shape and is matched by [REGEX_EXTERNAL]. *)
Theorem path_rule line p :
  parsed_field line 4 = Some p ->
  (truthy_get (statsIgnorePaths conf) (strip_query p) = true
   \/ ~ external_shape (strip_query p) ->
   forall e, parseLine conf Date_parse line <> Normal (Some e))
  /\ (head (strip_query p) = Some c_slash ->
      (4 <= length (segments (strip_query p)))%nat ->
      external_shape (strip_query p)
      /\ test REGEX_EXTERNAL (strip_query p) = true).
Proof.
  intros Hp. split.
  - intros Hrej e He.
    apply parseLine_forwarded in He
      as (m & p' & r & Hm & _ & H4 & _ & _ & _ & _ & Hign & Hext & _).
    apply parsed_field_exec in Hp as (m' & Hm' & Hp).
    rewrite Hm in Hm'. injection Hm' as <-. rewrite H4 in Hp. injection Hp as ->.
    destruct Hrej as [Hi|Hs]; [congruence|].
    apply Hs, external_sound, Hext.
  - intros Hhd Hseg.
    destruct (parsed_path_no_space _ _ Hp) as [_ Hns].
    assert (Hok : Forall dot_ok (strip_query p)).
    { rewrite strip_query_spec by (apply no_space_dot_ok, Hns).
      apply before_query_Forall, no_space_dot_ok, Hns. }
    destruct (strip_query p) as [|c q]; [discriminate|].
    injection Hhd as ->.
    destruct (segments_shape q Hseg) as (x1 & x2 & x3 & c & t & E & N1 & N2 & N3).
    assert (Hs : external_shape (c_slash :: q)).
    { exists x1, x2, x3, c, t. rewrite E in Hok |- *.
      repeat (split; [assumption || reflexivity|]).
      apply Forall_cons in Hok as [_ Hok].
      apply Forall_app in Hok as [O1 Hok]. apply Forall_cons in Hok as [_ Hok].
      apply Forall_app in Hok as [O2 Hok]. apply Forall_cons in Hok as [_ Hok].
      apply Forall_app in Hok as [O3 Hok]. apply Forall_cons in Hok as [_ Hok].
      apply Forall_cons in Hok as [O4 _].
      repeat (apply Forall_app; split; [assumption|]).
      constructor; [assumption | constructor]. }
    split; [exact Hs | apply external_complete, Hs].
Qed.

(** C4, as amended: a parsed request whose query-stripped referrer is a
    URL of the scheme http or https, in any case, with the host
    localhost (in any case), 127.0.0.1 or a bracketed IPv6 loopback in one of
    the spellings of [ipv6_loopback], with or without a decimal port, and
    followed by a slash, is never forwarded. *)
Theorem loopback_referrer_dropped line r :
  parsed_field line 7 = Some r ->
  loopback_url (strip_query r) ->
  forall e, parseLine conf Date_parse line <> Normal (Some e).
Proof.
  intros Hr Hl e He.
  apply parseLine_forwarded in He
    as (m & p & r' & Hm & _ & _ & H7 & _ & _ & _ & _ & _ & Hlo & _).
  apply parsed_field_exec in Hr as (m' & Hm' & Hr).
  rewrite Hm in Hm'. injection Hm' as <-. rewrite H7 in Hr. injection Hr as ->.
  apply loopback_complete in Hl. congruence.
Qed.

(** Whatever its path, a referrer at the mirror stops the request. *)
Lemma mirror_referrer_dropped line r :
  parsed_field line 7 = Some r ->
  test REGEX_RAWGIT (strip_query r) = true ->
  forall e, parseLine conf Date_parse line <> Normal (Some e).
Proof.
  intros Hr Hraw e He.
  apply parseLine_forwarded in He
    as (m & p & r' & Hm & _ & _ & H7 & _ & _ & _ & _ & _ & _ & Hrule).
  apply parsed_field_exec in Hr as (m' & Hm' & Hr).
  rewrite Hm in Hm'. injection Hm' as <-. rewrite H7 in Hr. injection Hr as ->.
  rewrite Hraw, (rawgit_not_external _ Hraw) in Hrule. discriminate.
Qed.

(** C5: a line whose parsed status field is the string 403 is never
    forwarded, whatever its other fields: [parseLine] returns without a
    call of the collector. *)
Theorem blocked_status_dropped line :
  parsed_field line 5 = Some (str "403") ->
  parseLine conf Date_parse line = Normal None.
Proof.
  intros H. apply parsed_field_exec in H as (m & Hm & H5).
  unfold parseLine. rewrite Hm, H5. reflexivity.
Qed.

(** C8, as amended: the bytes value of an accepted event is what
    [parseInt(field, 10) || 0] gives for the bytes field: after one optional
    sign come the digits [ds] that are read and a rest that is ignored.  The
    value is not negative unless the field begins with a minus sign; it is
    0 when the digits are missing or denote zero; it is the signed decimal
    value of the digits up to [2^53]; above that it is the nearest Number,
    that is, with [2^52 <= q < 2^53] and [0 <= r < 2^k] the nearest
    multiple of [2^k] to the value [q * 2^k + r], the even one at a tie, and
    an infinity when that multiple has reached [2^1024]. *)
Theorem bytes_value line e :
  parseLine conf Date_parse line = Normal (Some e) ->
  exists b ds rest,
    parsed_field line 6 = Some b
    /\ unsigned_part b = ds ++ rest
    /\ Forall (fun c => is_digit c = true) ds
    /\ (forall c, head rest = Some c -> is_digit c = false)
    /\ (negative_field b = false -> not_negative (ev_size e))
    /\ (decimal ds = 0%Z -> ev_size e = Int 0)
    /\ ((0 < decimal ds <= 2 ^ 53)%Z ->
        ev_size e = Int (with_sign_of b (decimal ds)))
    /\ (forall k q r : Z,
          (0 < k)%Z -> decimal ds = (q * 2 ^ k + r)%Z ->
          (2 ^ 52 <= q < 2 ^ 53)%Z -> (0 <= r < 2 ^ k)%Z ->
          ev_size e
          = if (2 ^ 1024 <=? round_even q k r)%Z
            then Infinity (negative_field b)
            else Int (with_sign_of b (round_even q k r))).
Proof.
  intros He.
  apply parseLine_forwarded in He
    as (m & p & r & Hm & _ & _ & _ & _ & _ & Hsz & _).
  destruct (clf_fields _ _ Hm) as (g4 & b & _ & _ & _ & H6 & Hne & Hns).
  destruct (digits_prefix_split (unsigned_part b)) as (rest & Hu & Hr).
  pose proof (digits_prefix_digits (unsigned_part b)) as Hd.
  remember (digits_prefix (unsigned_part b)) as ds eqn:Eds. clear Eds.
  exists b, ds, rest.
  split; [unfold parsed_field; rewrite Hm; exact H6|].
  split; [exact Hu|]. split; [exact Hd|]. split; [exact Hr|].
  rewrite Hsz, H6, (parseInt10_field b ds rest Hne Hns Hu Hd Hr).
  pose proof (decimal_nonneg ds) as Hnn.
  unfold with_sign_of.
  destruct ds as [|d ds'].
  { change (decimal []) with 0%Z. cbn [number_or_zero].
    split; [intros _; simpl; lia|]. split; [reflexivity|].
    split; [lia|]. intros k q r0 Hk Hv Hq Hr0. exfalso.
    assert (Hp : (0 < 2 ^ k)%Z) by (apply Z.pow_pos_nonneg; lia).
    change (2 ^ 52)%Z with 4503599627370496%Z in Hq. nia. }
  set (v := decimal (d :: ds')) in *.
  split; [|split; [|split]].
  - intros ->. apply to_number_not_negative, Hnn.
  - intros ->. apply to_number_zero.
  - intros Hv. rewrite (to_number_exact _ _ Hv). cbn [number_or_zero].
    destruct (Z.eqb_spec (if negative_field b then (- v)%Z else v) 0%Z)
      as [E|_]; [|reflexivity].
    destruct (negative_field b); lia.
  - intros k q r0 Hk Hv Hq Hr0.
    assert (Hp : (0 < 2 ^ k)%Z) by (apply Z.pow_pos_nonneg; lia).
    rewrite (to_number_rounded _ _ k q r0 Hk Hv Hq Hr0).
    destruct (2 ^ 1024 <=? round_even q k r0)%Z; [reflexivity|].
    assert (Hre : (0 < round_even q k r0)%Z).
    { unfold round_even. change (2 ^ 52)%Z with 4503599627370496%Z in Hq.
      destruct (_ || _); nia. }
    cbn [number_or_zero].
    destruct (Z.eqb_spec (if negative_field b then (- round_even q k r0)%Z
                          else round_even q k r0) 0%Z) as [E|_]; [|reflexivity].
    destruct (negative_field b); lia.
Qed.

Lemma parseLine_path_ok line e :
  parseLine conf Date_parse line = Normal (Some e) -> collector_path_ok conf e.
Proof.
  intros He.
  apply parseLine_forwarded in He
    as (m & p & r & Hm & _ & H4 & _ & Hp & _ & _ & Hign & Hext & _).
  destruct (clf_fields _ _ Hm) as (g4 & b & H4' & _ & Hns & _).
  rewrite H4 in H4'. injection H4' as <-.
  unfold collector_path_ok. rewrite Hp.
  destruct (external_shape_slashes _ (external_sound _ Hext)) as [Hh Hs].
  repeat split; try assumption.
  rewrite strip_query_spec by (apply no_space_dot_ok, Hns).
  apply before_query_no_qmark.
Qed.

(** The path of an accepted event is the path of the request up to its
    first question mark, and so is the referrer when it holds no line
    terminator. *)
Lemma accepted_event_stripped line e :
  parseLine conf Date_parse line = Normal (Some e) ->
  exists p r,
    parsed_field line 4 = Some p /\ parsed_field line 7 = Some r
    /\ ev_path e = before_query p
    /\ (Forall dot_ok r -> ev_referrer e = before_query r).
Proof.
  intros He.
  apply parseLine_forwarded in He
    as (m & p & r & Hm & _ & H4 & H7 & Hp & Hr & _).
  destruct (clf_fields _ _ Hm) as (g4 & b & H4' & _ & Hns & _).
  rewrite H4 in H4'. injection H4' as <-.
  exists p, r. unfold parsed_field. rewrite Hm. simpl.
  split; [exact H4|]. split; [exact H7|]. split.
  - rewrite Hp. apply strip_query_spec, no_space_dot_ok, Hns.
  - intros Hok. rewrite Hr. apply strip_query_spec, Hok.
Qed.

(** C9: when the log exists, the first launch of the subprocess has the
    configured scrollback (0 when none is configured), every later launch
    has the scrollback 0, and there is one later launch for each exit of
    the subprocess that the module handles. *)
Theorem scrollback_once existsSync logPath evs :
  upstreamRequestLog conf = Some logPath ->
  logPath <> [] ->
  existsSync logPath = true ->
  exists n,
    spawned (run conf Date_parse logPath (init conf existsSync) evs)
    = Spawn (or_zero (upstreamRequestLogScrollback conf)) logPath
      :: replicate n (Spawn 0 logPath)
    /\ (n <= exits evs)%nat
    /\ (uncaught (run conf Date_parse logPath (init conf existsSync) evs) = None ->
        n = exits evs).
Proof.
  intros Hlog Hne Hex.
  destruct (run_spawned conf Date_parse logPath evs (init conf existsSync))
    as (n & Hsp & Hle & Hn).
  exists n. split; [|auto]. rewrite Hsp. unfold init. rewrite Hlog, Hex.
  rewrite bool_decide_eq_false_2 by assumption. reflexivity.
Qed.

(** C10: in every run of the module, every path handed to the collector
    begins with a slash, holds at least four slashes, holds no question
    mark, and is not in the ignore set. *)
Theorem collector_paths existsSync logPath evs :
  Forall (collector_path_ok conf)
    (logged (run conf Date_parse logPath (init conf existsSync) evs)).
Proof.
  apply run_logged.
  - apply parseLine_path_ok.
  - rewrite init_logged. constructor.
Qed.

End Claims.

(** C6: two sequences of text chunks with the same concatenation give the
    same lines in the same order and the same overflow; the stream is
    these lines, each followed by its terminator, and then the overflow,
    none of which holds a terminator; and the lines emitted so far stay
    as they are when more chunks arrive. *)
Theorem chunk_boundary_independence (cs1 cs2 : list jsstring) :
  concat cs1 = concat cs2 ->
  feed [] (Some <$> cs1) = feed [] (Some <$> cs2)
  /\ exists lines o,
       feed [] (Some <$> cs1) = (lines, o)
       /\ concat cs1 = unsplit lines o
       /\ Forall (fun l => c_lf ∉ l) lines
       /\ (c_lf ∉ o)
       /\ forall more, exists later,
            (feed [] ((Some <$> cs1) ++ more)).1 = lines ++ later.
Proof.
  intros Heq.
  rewrite !feed_stream by apply not_elem_of_nil. cbn [app]. rewrite <- Heq.
  split; [reflexivity|].
  destruct (split_unsplit (concat cs1)) as (ls & o & Hsp & Hs & Hls & Ho).
  exists ls, o. rewrite Hsp, pop_snoc.
  split; [reflexivity|]. split; [assumption|]. split; [assumption|].
  split; [assumption|].
  intros more. rewrite feed_app, feed_stream by apply not_elem_of_nil.
  cbn [app]. rewrite Hsp, pop_snoc. cbn [fst snd]. eexists. reflexivity.
Qed.

(** ** The module on the sample lines *)

(** The scenario of the specification: the line is forwarded with its
    path and referrer stripped of their queries. *)
Example accepted_line_forwarded :
  parseLine sample_conf sample_date accepted_line
  = Normal (Some accepted_event).
Proof. vm_compute. reflexivity. Qed.

(** A read that returns [null] puts the name of the value into the
    overflow. *)
Example null_chunk_joins_overflow :
  feed [] [Some (str "GET"); None; Some (str " /a" ++ [c_lf])]
  = ([str "GETnull /a"], []).
Proof. vm_compute. reflexivity. Qed.

(** C1: the referrer of [mirror_deep_line] is at the mirror and its path
    has four segments, yet the request is not forwarded, although the
    line passes every other rule, as the same line with another referrer
    shows: [REGEX_EXTERNAL] is tested on the whole referrer, which begins
    with the scheme and never with a slash. *)
Theorem mirror_deep_referrer_dropped :
  parsed_field mirror_deep_line 7
    = Some (str "https://rawgit.com" ++ str "/user/repo/main/index.html")
  /\ (4 <= length (segments (str "/user/repo/main/index.html")))%nat
  /\ test REGEX_EXTERNAL (str "/user/repo/main/index.html") = true
  /\ parseLine sample_conf sample_date mirror_deep_line = Normal None
  /\ parseLine sample_conf sample_date accepted_line
     = Normal (Some accepted_event).
Proof. vm_compute. repeat split; try reflexivity; lia. Qed.

(** C2: on a line in Common Log Format, without the quoted referrer and
    user agent, [parseLine] throws a TypeError to its caller; the handler
    leaves its loop, the line after it in the chunk is not parsed, and the
    error is uncaught. *)
Theorem plain_line_throws :
  parsed_field plain_line 4 = Some (str "/user/repo/main/file.js")
  /\ parsed_field plain_line 7 = None
  /\ parseLine sample_conf sample_date plain_line = Throw TypeError
  /\ run sample_conf sample_date sample_log (init sample_conf sample_exists)
       [OnReadable (Some (plain_line ++ [c_lf] ++ accepted_line ++ [c_lf]));
        OnReadable (Some (accepted_line ++ [c_lf]))]
     = ModuleState true [Spawn 1000 sample_log] [] [] (Some TypeError).
Proof. vm_compute. repeat split; reflexivity. Qed.

(** C3 fails as stated: a path with three non-empty segments is
    forwarded, and a path with four non-empty segments that does not begin
    with a slash is not. *)
Lemma empty_segment_forwarded :
  parsed_field empty_segment_line 4 = Some (str "/user/repo/main//")
  /\ strip_query (str "/user/repo/main//") = str "/user/repo/main//"
  /\ length (segments (str "/user/repo/main//")) = 3%nat
  /\ parseLine sample_conf sample_date empty_segment_line
     = Normal (Some (Event (str "/user/repo/main//")
                       (str "https://example.com/page") (Int 512) 1602363336000))
  /\ parsed_field relative_path_line 4 = Some (str "user/repo/main/file.js")
  /\ length (segments (str "user/repo/main/file.js")) = 4%nat
  /\ test REGEX_EXTERNAL (strip_query (str "user/repo/main/file.js")) = false
  /\ parseLine sample_conf sample_date relative_path_line = Normal None.
Proof. vm_compute. repeat split; reflexivity. Qed.

Lemma path_rule_witness :
  parsed_field accepted_line 4 = Some (str "/user/repo/main/file.js?x=1")
  /\ (truthy_get (statsIgnorePaths sample_conf)
        (strip_query (str "/user/repo/main/file.js?x=1")) = true
      \/ ~ external_shape (strip_query (str "/user/repo/main/file.js?x=1")) ->
      forall e, parseLine sample_conf sample_date accepted_line
                <> Normal (Some e))
  /\ (head (strip_query (str "/user/repo/main/file.js?x=1")) = Some c_slash ->
      (4 <= length (segments (strip_query (str "/user/repo/main/file.js?x=1"))))%nat ->
      external_shape (strip_query (str "/user/repo/main/file.js?x=1"))
      /\ test REGEX_EXTERNAL (strip_query (str "/user/repo/main/file.js?x=1"))
         = true).
Proof.
  assert (H : parsed_field accepted_line 4
              = Some (str "/user/repo/main/file.js?x=1"))
    by (vm_compute; reflexivity).
  split; [exact H|].
  exact (path_rule sample_conf sample_date accepted_line _ H).
Defined.

(** C4 fails as stated: a referrer at localhost without a path, and one
    at the IPv6 loopback in another of its spellings, are forwarded. *)
Lemma loopback_referrer_forwarded :
  parseLine sample_conf sample_date loopback_bare_line
    = Normal (Some (Event (str "/user/repo/main/file.js")
                      (str "http://localhost:8080") (Int 512) 1602363336000))
  /\ parseLine sample_conf sample_date loopback_short_line
    = Normal (Some (Event (str "/user/repo/main/file.js")
                      (str "http://[0::1]/x") (Int 512) 1602363336000)).
Proof. vm_compute. split; reflexivity. Qed.

Lemma loopback_referrer_dropped_witness :
  parsed_field loopback_line 7 = Some (str "http://localhost:8080/x?y=1")
  /\ loopback_url (strip_query (str "http://localhost:8080/x?y=1"))
  /\ forall e, parseLine sample_conf sample_date loopback_line
               <> Normal (Some e).
Proof.
  assert (H : parsed_field loopback_line 7
              = Some (str "http://localhost:8080/x?y=1"))
    by (vm_compute; reflexivity).
  assert (Hu : loopback_url (strip_query (str "http://localhost:8080/x?y=1"))).
  { exists (str "http"), (str "localhost"), (str ":8080"), (str "x").
    split; [vm_compute; reflexivity|].
    split; [left; reflexivity|].
    split; [left; reflexivity|].
    right. exists (str "8080").
    split; [reflexivity|]. split; [discriminate|].
    repeat constructor. }
  split; [exact H|]. split; [exact Hu|].
  exact (loopback_referrer_dropped sample_conf sample_date loopback_line _ H Hu).
Defined.

Lemma blocked_status_dropped_witness :
  parsed_field blocked_line 5 = Some (str "403")
  /\ parseLine sample_conf sample_date blocked_line = Normal None.
Proof.
  assert (H : parsed_field blocked_line 5 = Some (str "403"))
    by (vm_compute; reflexivity).
  split; [exact H|].
  exact (blocked_status_dropped sample_conf sample_date blocked_line H).
Defined.

Lemma chunk_boundary_independence_witness :
  let cs1 := [str "GET /a"; [c_lf]; str "GET /b" ++ [c_lf] ++ str "GE"] in
  let cs2 := [str "GET /a" ++ [c_lf] ++ str "GET"; str " /b" ++ [c_lf] ++ str "GE"] in
  concat cs1 = concat cs2
  /\ feed [] (Some <$> cs1) = feed [] (Some <$> cs2)
  /\ feed [] (Some <$> cs1) = ([str "GET /a"; str "GET /b"], str "GE").
Proof.
  intros cs1 cs2.
  assert (H : concat cs1 = concat cs2) by (vm_compute; reflexivity).
  split; [exact H|].
  split; [exact (proj1 (chunk_boundary_independence cs1 cs2 H))|].
  vm_compute. reflexivity.
Defined.

(** C7: a line terminator after the question mark of the referrer keeps
    [REGEX_QUERY] from matching, and the referrer reaches the collector
    with its query string. *)
Theorem query_kept_before_line_terminator :
  parsed_field cr_line 7 = Some cr_referrer
  /\ before_query cr_referrer = str "https://example.com/page"
  /\ parseLine sample_conf sample_date cr_line
     = Normal (Some (Event (str "/user/repo/main/file.js") cr_referrer
                       (Int 512) 1602363336000))
  /\ c_qmark ∈ cr_referrer.
Proof.
  vm_compute. repeat split; try reflexivity.
  apply list_elem_of_In. vm_compute. tauto.
Qed.

(** C8 fails as stated: a bytes field with a minus sign gives a negative
    bytes value at the collector. *)
Lemma negative_bytes_forwarded :
  parsed_field negative_line 6 = Some (str "-5")
  /\ parseLine sample_conf sample_date negative_line
     = Normal (Some (Event (str "/user/repo/main/file.js")
                       (str "https://example.com/page") (Int (-5)) 1602363336000)).
Proof. vm_compute. split; reflexivity. Qed.

(** The runs of [REGEX_EXTERNAL] may hold slashes, or be slashes. *)
Example external_runs_of_slashes :
  test REGEX_EXTERNAL (str "/a/////b") = true
  /\ test REGEX_EXTERNAL (str "////////") = true
  /\ segments (str "/a/////b") = [str "a"; str "b"]
  /\ segments (str "////////") = [].
Proof. vm_compute. repeat split; reflexivity. Qed.

(** [parseInt] beyond the 53 bits of a Number: the nearest double, the
    even one at a tie, an infinity for a field of 400 digits, and the
    negative zero, which is falsy. *)
Example parseInt10_beyond_53_bits :
  parseInt10 (Some (str "9007199254740993")) = Int 9007199254740992
  /\ parseInt10 (Some (str "9007199254740995")) = Int 9007199254740996
  /\ parseInt10 (Some (str "-9007199254740993")) = Int (-9007199254740992)
  /\ parseInt10 (Some (replicate 400 57)) = Infinity false
  /\ parseInt10 (Some (str "-0")) = NegZero
  /\ number_or_zero (parseInt10 (Some (str "-0"))) = Int 0
  /\ parseInt10 None = NaN.
Proof. vm_compute. repeat split; reflexivity. Qed.

Lemma bytes_value_witness :
  parseLine sample_conf sample_date accepted_line
  = Normal (Some accepted_event)
  /\ exists b ds rest,
       parsed_field accepted_line 6 = Some b
       /\ unsigned_part b = ds ++ rest
       /\ Forall (fun c => is_digit c = true) ds
       /\ (forall c, head rest = Some c -> is_digit c = false)
       /\ (negative_field b = false -> not_negative (ev_size accepted_event))
       /\ (decimal ds = 0%Z -> ev_size accepted_event = Int 0)
       /\ ((0 < decimal ds <= 2 ^ 53)%Z ->
           ev_size accepted_event = Int (with_sign_of b (decimal ds)))
       /\ (forall k q r : Z,
             (0 < k)%Z -> decimal ds = (q * 2 ^ k + r)%Z ->
             (2 ^ 52 <= q < 2 ^ 53)%Z -> (0 <= r < 2 ^ k)%Z ->
             ev_size accepted_event
             = if (2 ^ 1024 <=? round_even q k r)%Z
               then Infinity (negative_field b)
               else Int (with_sign_of b (round_even q k r))).
Proof.
  assert (H : parseLine sample_conf sample_date accepted_line
              = Normal (Some accepted_event))
    by (vm_compute; reflexivity).
  split; [exact H|].
  exact (bytes_value sample_conf sample_date accepted_line accepted_event H).
Defined.

Lemma scrollback_once_witness :
  let evs := [OnReadable (Some (accepted_line ++ [c_lf])); OnExit;
              OnReadable None; OnExit] in
  upstreamRequestLog sample_conf = Some sample_log
  /\ sample_log <> []
  /\ sample_exists sample_log = true
  /\ exists n,
       spawned (run sample_conf sample_date sample_log
                  (init sample_conf sample_exists) evs)
       = Spawn (or_zero (upstreamRequestLogScrollback sample_conf)) sample_log
         :: replicate n (Spawn 0 sample_log)
       /\ (n <= exits evs)%nat
       /\ (uncaught (run sample_conf sample_date sample_log
                       (init sample_conf sample_exists) evs) = None ->
           n = exits evs).
Proof.
  intros evs.
  assert (H1 : upstreamRequestLog sample_conf = Some sample_log)
    by reflexivity.
  assert (H2 : sample_log <> []) by discriminate.
  assert (H3 : sample_exists sample_log = true) by reflexivity.
  split; [exact H1|]. split; [exact H2|]. split; [exact H3|].
  exact (scrollback_once sample_conf sample_date sample_exists sample_log evs
           H1 H2 H3).
Defined.

(** * Further properties of the module *)

Section Tokens.
Variable icase : bool.

Lemma rmatch_plus_cons g cs k c t i cp :
  rmatch icase (RPlus g (RChar cs)) k (MState (c :: t) i cp)
  = if cset_match icase cs c
    then star_loop g (rmatch icase (RChar cs)) k (length t) (MState t (S i) cp)
    else None.
Proof. reflexivity. Qed.

Lemma rmatch_star g r k s :
  rmatch icase (RStar g r) k s
  = star_loop g (rmatch icase r) k (length (rest s)) s.
Proof. reflexivity. Qed.

Lemma star_greedy_run cs k w : forall t i cp fuel,
  Forall (fun c => cset_match icase cs c = true) w ->
  ends_run icase cs t ->
  (length (w ++ t) <= fuel)%nat ->
  star_loop true (rmatch icase (RChar cs)) k fuel (MState (w ++ t) i cp)
  = scan_back k w t i cp.
Proof.
  induction w as [|c w IH]; intros t i cp fuel Hw Ht Hfuel.
  - simpl. destruct fuel as [|fuel]; [reflexivity|]. simpl.
    destruct t as [|c t]; [reflexivity|].
    rewrite (Ht c eq_refl). reflexivity.
  - apply Forall_cons in Hw as [Hc Hw].
    destruct fuel as [|fuel]; [simpl in Hfuel; lia|].
    simpl. rewrite Hc.
    destruct (Nat.ltb_spec (length (w ++ t)) (S (length (w ++ t)))); [|lia].
    rewrite IH; [reflexivity | assumption | assumption | simpl in Hfuel; lia].
Qed.

Lemma scan_back_end k w : forall t i cp x,
  k (MState t (i + length w) cp) = Some x ->
  scan_back k w t i cp = Some x.
Proof.
  induction w as [|c w IH]; intros t i cp x Hk; simpl in *.
  - rewrite Nat.add_0_r in Hk. exact Hk.
  - rewrite (IH t (S i) cp x); [reflexivity|].
    rewrite Nat.add_succ_comm. exact Hk.
Qed.

Lemma scan_back_last k w c : forall t i cp,
  k (MState t (i + S (length w)) cp) = None ->
  scan_back k (w ++ [c]) t i cp = scan_back k w (c :: t) i cp.
Proof.
  induction w as [|c0 w IH]; intros t i cp Hk; simpl in *.
  - rewrite Nat.add_1_r in Hk. rewrite Hk. reflexivity.
  - rewrite IH by (rewrite Nat.add_succ_comm; exact Hk).
    rewrite <- app_assoc. reflexivity.
Qed.

(** A greedy [cs+] whose run ends where the class ends, and after which
    the continuation succeeds. *)
Lemma plus_greedy_some cs k w t i cp x :
  w <> [] ->
  Forall (fun c => cset_match icase cs c = true) w ->
  ends_run icase cs t ->
  k (MState t (i + length w) cp) = Some x ->
  rmatch icase (RPlus true (RChar cs)) k (MState (w ++ t) i cp) = Some x.
Proof.
  intros Hne Hw Ht Hk. destruct w as [|c w]; [done|].
  apply Forall_cons in Hw as [Hc Hw].
  cbn [app]. rewrite rmatch_plus_cons, Hc.
  rewrite star_greedy_run by (assumption || lia).
  apply scan_back_end. rewrite Nat.add_succ_comm. exact Hk.
Qed.

(** A greedy [cs+] that runs one character too far and comes back. *)
Lemma plus_greedy_back cs k w q t i cp x :
  w <> [] ->
  Forall (fun c => cset_match icase cs c = true) w ->
  cset_match icase cs q = true ->
  ends_run icase cs t ->
  k (MState t (i + S (length w)) cp) = None ->
  k (MState (q :: t) (i + length w) cp) = Some x ->
  rmatch icase (RPlus true (RChar cs)) k (MState (w ++ q :: t) i cp) = Some x.
Proof.
  intros Hne Hw Hq Ht Hn Hk. destruct w as [|c w]; [done|].
  apply Forall_cons in Hw as [Hc Hw].
  cbn [app]. rewrite rmatch_plus_cons, Hc.
  replace (w ++ q :: t) with ((w ++ [q]) ++ t)
    by (rewrite <- app_assoc; reflexivity).
  rewrite star_greedy_run.
  - rewrite scan_back_last.
    + apply scan_back_end. rewrite Nat.add_succ_comm. exact Hk.
    + simpl in Hn. rewrite Nat.add_succ_comm. exact Hn.
  - apply Forall_app. split; [assumption | constructor; [assumption | constructor]].
  - assumption.
  - lia.
Qed.

Lemma star_greedy_some cs k w t i cp x :
  Forall (fun c => cset_match icase cs c = true) w ->
  ends_run icase cs t ->
  k (MState t (i + length w) cp) = Some x ->
  rmatch icase (RStar true (RChar cs)) k (MState (w ++ t) i cp) = Some x.
Proof.
  intros Hw Ht Hk. rewrite rmatch_star. cbn [rest].
  rewrite star_greedy_run by (assumption || lia).
  apply scan_back_end, Hk.
Qed.

(** A lazy [cs*?] stops at the first place where the continuation
    succeeds. *)
Lemma star_lazy_first cs k w : forall t i cp fuel x,
  Forall (fun c => cset_match icase cs c = true) w ->
  (forall c t' j cp', c ∈ w -> k (MState (c :: t') j cp') = None) ->
  k (MState t (i + length w) cp) = Some x ->
  (length (w ++ t) <= fuel)%nat ->
  star_loop false (rmatch icase (RChar cs)) k fuel (MState (w ++ t) i cp)
  = Some x.
Proof.
  induction w as [|c w IH]; intros t i cp fuel x Hw Hfail Hk Hfuel.
  - simpl in *. rewrite Nat.add_0_r in Hk.
    destruct fuel as [|fuel]; simpl; rewrite Hk; reflexivity.
  - apply Forall_cons in Hw as [Hc Hw].
    destruct fuel as [|fuel]; [simpl in Hfuel; lia|].
    simpl. rewrite (Hfail c _ _ _ (list_elem_of_here _ _)). rewrite Hc.
    destruct (Nat.ltb_spec (length (w ++ t)) (S (length (w ++ t)))); [|lia].
    apply IH; try assumption.
    + intros c' t' j cp' Hin. apply Hfail. apply list_elem_of_further, Hin.
    + simpl in Hk. rewrite Nat.add_succ_comm. exact Hk.
    + simpl in Hfuel. lia.
Qed.

Lemma plus_lazy_some cs k w t i cp x :
  w <> [] ->
  Forall (fun c => cset_match icase cs c = true) w ->
  (forall c t' j cp', c ∈ w -> k (MState (c :: t') j cp') = None) ->
  k (MState t (i + length w) cp) = Some x ->
  rmatch icase (RPlus false (RChar cs)) k (MState (w ++ t) i cp) = Some x.
Proof.
  intros Hne Hw Hfail Hk. destruct w as [|c w]; [done|].
  apply Forall_cons in Hw as [Hc Hw].
  cbn [app]. rewrite rmatch_plus_cons, Hc.
  apply star_lazy_first; try assumption.
  - intros c' t' j cp' Hin. apply Hfail, list_elem_of_further, Hin.
  - rewrite Nat.add_succ_comm. exact Hk.
  - lia.
Qed.

End Tokens.

Lemma not_space_class w :
  no_space w -> Forall (fun c => cset_match false CsNotSpace c = true) w.
Proof.
  intros H. eapply Forall_impl; [exact H|]. intros c Hc. simpl.
  rewrite Hc. reflexivity.
Qed.

Lemma tok_field n R k w (t : jsstring) i cp x :
  token w -> ends_run false CsNotSpace t ->
  rmatch false R k (MState t (i + length w) (<[n := w]> cp)) = Some x ->
  rmatch false (RSeq (RGroup n (RPlus true not_space)) R) k
    (MState (w ++ t) i cp) = Some x.
Proof.
  intros [Hne Hw] Ht Hk.
  change (rmatch false (RPlus true (RChar CsNotSpace))
            (fun s' => rmatch false R k
               (set_cap n (consumed (MState (w ++ t) i cp) s') s'))
            (MState (w ++ t) i cp) = Some x).
  apply plus_greedy_some; [assumption | apply not_space_class, Hw | assumption|].
  rewrite consumed_app. exact Hk.
Qed.

Lemma tok_skip R k w (t : jsstring) i cp x :
  token w -> ends_run false CsNotSpace t ->
  rmatch false R k (MState t (i + length w) cp) = Some x ->
  rmatch false (RSeq (RPlus true not_space) R) k (MState (w ++ t) i cp)
  = Some x.
Proof.
  intros [Hne Hw] Ht Hk.
  change (rmatch false (RPlus true (RChar CsNotSpace)) (rmatch false R k)
            (MState (w ++ t) i cp) = Some x).
  apply plus_greedy_some; [assumption | apply not_space_class, Hw | assumption|].
  exact Hk.
Qed.

Lemma tok_lit l R k : forall (t : jsstring) i cp x,
  rmatch false R k (MState t (i + length l) cp) = Some x ->
  rmatch false (RSeq (RLit l) R) k (MState (l ++ t) i cp) = Some x.
Proof.
  induction l as [|c l IH]; intros t i cp x Hk.
  - simpl in *. rewrite Nat.add_0_r in Hk. exact Hk.
  - simpl. rewrite N.eqb_refl. apply (IH t (S i) cp x).
    simpl in Hk. rewrite Nat.add_succ_comm. exact Hk.
Qed.

Lemma tok_char c R k (t : jsstring) i cp x :
  rmatch false R k (MState t (S i) cp) = Some x ->
  rmatch false (RSeq (RChar (CsChar c)) R) k (MState (c :: t) i cp) = Some x.
Proof. intros Hk. simpl. rewrite N.eqb_refl. exact Hk. Qed.

Lemma ends_run_space (t : jsstring) : ends_run false CsNotSpace (str " " ++ t).
Proof. intros c [= <-]. reflexivity. Qed.

Lemma ends_run_nil cs : ends_run false cs [].
Proof. intros c [=]. Qed.

(** The date: a lazy run of characters up to the first bracket. *)
Lemma tok_date n l R k w (t : jsstring) i cp x :
  w <> [] -> Forall dot_ok w -> c_rbracket ∉ w ->
  rmatch false (RSeq (RLit (c_rbracket :: l)) R) k
    (MState t (i + length w) (<[n := w]> cp)) = Some x ->
  rmatch false (RSeq (RGroup n (RPlus false dot)) (RSeq (RLit (c_rbracket :: l)) R))
    k (MState (w ++ t) i cp) = Some x.
Proof.
  intros Hne Hw Hb Hk.
  change (rmatch false (RPlus false (RChar CsDot))
            (fun s' => rmatch false (RSeq (RLit (c_rbracket :: l)) R) k
               (set_cap n (consumed (MState (w ++ t) i cp) s') s'))
            (MState (w ++ t) i cp) = Some x).
  apply plus_lazy_some.
  - assumption.
  - eapply Forall_impl; [exact Hw|]. intros c Hc. simpl. unfold dot_ok in Hc.
    rewrite Hc. reflexivity.
  - intros c t' j cp' Hin. simpl.
    destruct (N.eqb_spec c c_rbracket) as [->|_]; [done | reflexivity].
  - rewrite consumed_app. exact Hk.
Qed.

(** The protocol: the run of [\S] goes over the quote that ends the
    request and comes back to it. *)
Lemma tok_protocol R k w (t : jsstring) i cp x :
  token w -> ends_run false CsNotSpace t ->
  rmatch false R k (MState t (S (i + length w)) cp) = Some x ->
  rmatch false (RSeq (RPlus true not_space) (RSeq quote R)) k
    (MState (w ++ c_quote :: t) i cp) = Some x.
Proof.
  intros [Hne Hw] Ht Hk.
  change (rmatch false (RPlus true (RChar CsNotSpace))
            (rmatch false (RSeq quote R) k)
            (MState (w ++ c_quote :: t) i cp) = Some x).
  apply plus_greedy_back; [assumption | apply not_space_class, Hw | reflexivity
                          | assumption | |].
  - destruct t as [|c t]; [reflexivity|]. simpl.
    destruct (N.eqb_spec c c_quote) as [->|_]; [|reflexivity].
    specialize (Ht _ eq_refl). discriminate Ht.
  - apply tok_char. exact Hk.
Qed.

(** A quoted field: a greedy run of characters up to the quote. *)
Lemma tok_quoted n R k w (t : jsstring) i cp x :
  c_quote ∉ w ->
  rmatch false R k (MState t (S (i + length w)) (<[n := w]> cp)) = Some x ->
  rmatch false (RSeq (RGroup n (RStar true not_quote)) (RSeq quote R)) k
    (MState (w ++ c_quote :: t) i cp) = Some x.
Proof.
  intros Hw Hk.
  change (rmatch false (RStar true (RChar (CsNoneOf [c_quote])))
            (fun s' => rmatch false (RSeq quote R) k
               (set_cap n (consumed (MState (w ++ c_quote :: t) i cp) s') s'))
            (MState (w ++ c_quote :: t) i cp) = Some x).
  apply star_greedy_some.
  - apply Forall_forall. intros c Hc. simpl.
    destruct (N.eqb_spec c c_quote) as [->|_]; [done | reflexivity].
  - intros c [= <-]. reflexivity.
  - rewrite consumed_app. apply tok_char. exact Hk.
Qed.

Ltac token_side :=
  first [ assumption | apply ends_run_space | apply ends_run_nil ].

(** The tokens of an entry, up to the bytes. *)
Lemma entry_tokens f R k tail (P : mstate -> Prop) :
  wf_entry f -> ends_run false CsNotSpace tail ->
  (forall i, exists x,
     rmatch false R k (MState tail i (entry_caps f)) = Some x /\ P x) ->
  exists x,
    rmatch false
      (RCatK [ RBol;
               RGroup 1 (RPlus true not_space); lit " ";
               RPlus true not_space; lit " ";
               RPlus true not_space; lit " [";
               RGroup 2 (RPlus false dot); lit "] "; quote;
               RGroup 3 (RPlus true not_space); lit " ";
               RGroup 4 (RPlus true not_space); lit " ";
               RPlus true not_space; quote; lit " ";
               RGroup 5 (RPlus true not_space); lit " ";
               RGroup 6 (RPlus true not_space) ] R)
      k (MState (format_entry f tail) 0 ∅) = Some x
    /\ P x.
Proof.
  intros (Hip & Hid & Hus & (Hd1 & Hd2 & Hd3) & Hme & Hpa & Hpr & Hst & Hby)
    Htail Hk.
  edestruct Hk as (x & Hx & HP). exists x. split; [|exact HP].
  unfold format_entry. cbn [RCatK].
  change (rmatch false (RSeq RBol ?r) k ?s) with (rmatch false r k s).
  apply tok_field; [token_side..|]. apply (tok_lit (str " ")).
  apply tok_skip; [token_side..|]. apply (tok_lit (str " ")).
  apply tok_skip; [token_side..|]. apply (tok_lit (str " [")).
  apply (tok_date 2 (str " ")); [assumption..|]. apply (tok_lit (str "] ")).
  apply tok_char.
  apply tok_field; [token_side..|]. apply (tok_lit (str " ")).
  apply tok_field; [token_side..|]. apply (tok_lit (str " ")).
  apply tok_protocol; [token_side..|]. apply (tok_lit (str " ")).
  apply tok_field; [token_side..|]. apply (tok_lit (str " ")).
  apply tok_field; [token_side..|].
  exact Hx.
Qed.

Lemma exec_from_hit re i s e :
  rmatch (ignoreCase re) (source re) Some (MState s i ∅) = Some e ->
  exec_from re i s
  = Some (MatchResult i (take (length s - length (rest e)) s) (caps e)).
Proof. intros H. destruct s; simpl; rewrite H; reflexivity. Qed.

(** The quoted referrer and user agent at the end of a line. *)
Lemma combined_tail_tokens k referrer useragent i cp :
  c_quote ∉ referrer -> c_quote ∉ useragent ->
  exists j, forall x,
    k (MState [] j (<[8%nat := useragent]> (<[7%nat := referrer]> cp)))
    = Some x ->
    rmatch false
      (RCat [ lit " "; quote; RGroup 7 (RStar true not_quote);
              quote; lit " "; quote;
              RGroup 8 (RStar true not_quote); quote ])
      k (MState (str " " ++ c_quote :: referrer ++ c_quote :: str " "
                   ++ c_quote :: useragent ++ [c_quote]) i cp)
    = Some x.
Proof.
  intros Hr Hu. eexists. intros x Hk. cbn [RCat].
  apply (tok_lit (str " ")). apply tok_char. apply tok_quoted; [assumption|].
  apply (tok_lit (str " ")). apply tok_char. apply tok_quoted; [assumption|].
  exact Hk.
Qed.

Lemma exec_clf_combined f referrer useragent :
  wf_entry f -> c_quote ∉ referrer -> c_quote ∉ useragent ->
  exec REGEX_CLF (format_combined f referrer useragent)
  = Some (MatchResult 0 (format_combined f referrer useragent)
            (combined_caps f referrer useragent)).
Proof.
  intros Hf Hr Hu.
  destruct (entry_tokens f
    (RSeq (ROpt (RCat [ lit " "; quote; RGroup 7 (RStar true not_quote);
                        quote; lit " "; quote;
                        RGroup 8 (RStar true not_quote); quote ]))
       (RSeq REol REmpty)) Some
    (str " " ++ c_quote :: referrer ++ c_quote :: str " "
       ++ c_quote :: useragent ++ [c_quote])
    (fun x => rest x = [] /\ caps x = combined_caps f referrer useragent) Hf)
    as (x & Hx & Hrest & Hcaps).
  - apply ends_run_space.
  - intros i.
    destruct (combined_tail_tokens (rmatch false (RSeq REol REmpty) Some)
                referrer useragent i (entry_caps f) Hr Hu) as (j & Hj).
    exists (MState [] j (combined_caps f referrer useragent)).
    split; [|split; reflexivity].
    change (rmatch false (RSeq (ROpt ?b) ?r) Some ?s)
      with (match rmatch false b (rmatch false r Some) s with
            | Some y => Some y
            | None => rmatch false REmpty (rmatch false r Some) s
            end).
    rewrite (Hj _ eq_refl). reflexivity.
  - unfold exec, format_combined. rewrite (exec_from_hit REGEX_CLF 0 _ x Hx).
    rewrite Hrest, Hcaps. simpl length. rewrite Nat.sub_0_r, firstn_all.
    reflexivity.
Qed.

Lemma exec_clf_plain f :
  wf_entry f ->
  exec REGEX_CLF (format_clf f)
  = Some (MatchResult 0 (format_clf f) (entry_caps f)).
Proof.
  intros Hf.
  destruct (entry_tokens f
    (RSeq (ROpt (RCat [ lit " "; quote; RGroup 7 (RStar true not_quote);
                        quote; lit " "; quote;
                        RGroup 8 (RStar true not_quote); quote ]))
       (RSeq REol REmpty)) Some []
    (fun x => rest x = [] /\ caps x = entry_caps f) Hf)
    as (x & Hx & Hrest & Hcaps).
  - apply ends_run_nil.
  - intros i. eexists. split; [reflexivity|]. split; reflexivity.
  - unfold exec, format_clf. rewrite (exec_from_hit REGEX_CLF 0 _ x Hx).
    rewrite Hrest, Hcaps. simpl length. rewrite Nat.sub_0_r, firstn_all.
    reflexivity.
Qed.

Lemma token_dot_ok w : token w -> Forall dot_ok w.
Proof. intros [_ H]. apply no_space_dot_ok, H. Qed.

Section Formatted.
Variable conf : config.
Variable Date_parse : jsstring -> option Z.

(** X1: the fields of an entry come back from its line in Combined Log
    Format: on the line made of the fields of [f], a referrer and a user
    agent, the groups 1 to 8 of [REGEX_CLF] are the address, the date, the
    method, the path, the status, the bytes, the referrer and the user
    agent, when the tokens hold no white space, the date no closing
    bracket and no line terminator, and the quoted fields no quote. *)
Theorem parsed_fields_combined f referrer useragent :
  wf_entry f -> c_quote ∉ referrer -> c_quote ∉ useragent ->
  parsed_field (format_combined f referrer useragent)
    <$> [1; 2; 3; 4; 5; 6; 7; 8]%nat
  = [Some (le_ip f); Some (le_date f); Some (le_method f); Some (le_path f);
     Some (le_status f); Some (le_bytes f); Some referrer; Some useragent].
Proof.
  intros Hf Hr Hu. unfold parsed_field.
  rewrite (exec_clf_combined f referrer useragent Hf Hr Hu). reflexivity.
Qed.

(** X2: on the line of an entry in Common Log Format, without the quoted
    fields, the groups 1 to 6 of [REGEX_CLF] are the fields of the entry
    and the groups 7 and 8 are undefined. *)
Theorem parsed_fields_clf f :
  wf_entry f ->
  parsed_field (format_clf f) <$> [1; 2; 3; 4; 5; 6; 7; 8]%nat
  = [Some (le_ip f); Some (le_date f); Some (le_method f); Some (le_path f);
     Some (le_status f); Some (le_bytes f); None; None].
Proof.
  intros Hf. unfold parsed_field. rewrite (exec_clf_plain f Hf). reflexivity.
Qed.

(** [parseLine] on a line in Combined Log Format, by its fields. *)
Lemma parseLine_combined f referrer useragent :
  wf_entry f -> c_quote ∉ referrer -> c_quote ∉ useragent ->
  parseLine conf Date_parse (format_combined f referrer useragent)
  = if bool_decide (le_status f = str "403") then Normal None
    else if truthy_get (statsIgnorePaths conf) (strip_query (le_path f))
            || negb (test REGEX_EXTERNAL (strip_query (le_path f)))
    then Normal None
    else if test REGEX_LOOOPBACK_URL (strip_query referrer) then Normal None
    else if test REGEX_RAWGIT (strip_query referrer) then Normal None
    else Normal (Some (Event (strip_query (le_path f)) (strip_query referrer)
                         (number_or_zero (parseInt10 (Some (le_bytes f))))
                         (or_zero (Date_parse
                            (replace REGEX_DATE date_template (le_date f)))))).
Proof.
  intros Hf Hr Hu. unfold parseLine.
  rewrite (exec_clf_combined f referrer useragent Hf Hr Hu).
  cbn [m_caps].
  assert (H2 : combined_caps f referrer useragent !! 2%nat = Some (le_date f))
    by reflexivity.
  assert (H4 : combined_caps f referrer useragent !! 4%nat = Some (le_path f))
    by reflexivity.
  assert (H5 : combined_caps f referrer useragent !! 5%nat = Some (le_status f))
    by reflexivity.
  assert (H6 : combined_caps f referrer useragent !! 6%nat = Some (le_bytes f))
    by reflexivity.
  assert (H7 : combined_caps f referrer useragent !! 7%nat = Some referrer)
    by reflexivity.
  rewrite H5. cbn [strict_eq].
  destruct (bool_decide (le_status f = str "403")); [reflexivity|].
  rewrite H4. cbn [method_replace mbind completion_bind].
  fold (strip_query (le_path f)).
  destruct (truthy_get _ _ || negb _); [reflexivity|].
  rewrite H7. cbn [method_replace mbind completion_bind].
  fold (strip_query referrer).
  destruct (test REGEX_LOOOPBACK_URL _); [reflexivity|].
  destruct (test REGEX_RAWGIT (strip_query referrer)) eqn:Eraw.
  - rewrite (rawgit_not_external _ Eraw). reflexivity.
  - cbn [andb]. rewrite H2, H6. reflexivity.
Qed.

(** X5: a line in Combined Log Format never makes [parseLine] throw, and
    the address, the identity, the user, the method, the protocol and the
    user agent have no part in what [parseLine] does. *)
Theorem combined_line_irrelevant_fields f f' referrer useragent useragent' :
  wf_entry f -> wf_entry f' ->
  c_quote ∉ referrer -> c_quote ∉ useragent -> c_quote ∉ useragent' ->
  le_date f = le_date f' -> le_path f = le_path f' ->
  le_status f = le_status f' -> le_bytes f = le_bytes f' ->
  parseLine conf Date_parse (format_combined f referrer useragent)
  = parseLine conf Date_parse (format_combined f' referrer useragent')
  /\ exists r,
       parseLine conf Date_parse (format_combined f referrer useragent)
       = Normal r.
Proof.
  intros Hf Hf' Hr Hu Hu' Ed Ep Es Eb.
  rewrite !parseLine_combined by assumption. rewrite Ed, Ep, Es, Eb.
  split; [reflexivity|].
  repeat match goal with
  | |- context [if ?b then _ else _] => destruct b
  end; eauto.
Qed.

(** X4: a line in Combined Log Format is forwarded exactly when its status
    is not 403, its path before the query is not ignored and has the
    external shape, and its query-stripped referrer matches neither
    [REGEX_LOOOPBACK_URL] nor [REGEX_RAWGIT]; the event is then made of the
    path before the query, the stripped referrer, the bytes read by
    [parseInt] as a Number, or 0 for [NaN] and zero, and the date read by
    [Date.parse] after the replacement of [REGEX_DATE], or 0 likewise. *)
Theorem combined_line_forwarded_iff f referrer useragent e :
  wf_entry f -> c_quote ∉ referrer -> c_quote ∉ useragent ->
  parseLine conf Date_parse (format_combined f referrer useragent)
    = Normal (Some e)
  <->
  le_status f <> str "403"
  /\ truthy_get (statsIgnorePaths conf) (before_query (le_path f)) = false
  /\ external_shape (before_query (le_path f))
  /\ test REGEX_LOOOPBACK_URL (strip_query referrer) = false
  /\ test REGEX_RAWGIT (strip_query referrer) = false
  /\ e = Event (before_query (le_path f)) (strip_query referrer)
           (number_or_zero (parseInt10 (Some (le_bytes f))))
           (or_zero (Date_parse
              (replace REGEX_DATE date_template (le_date f)))).
Proof.
  intros Hf Hr Hu. rewrite parseLine_combined by assumption.
  assert (Hp : strip_query (le_path f) = before_query (le_path f)).
  { apply strip_query_spec, token_dot_ok.
    destruct Hf as (_ & _ & _ & _ & _ & Hp & _). exact Hp. }
  rewrite Hp.
  destruct (bool_decide_reflect (le_status f = str "403")) as [Hs|Hs].
  { split; [discriminate | intros (Hn & _); contradiction]. }
  destruct (truthy_get _ _) eqn:Eign.
  { split; [discriminate | intros (_ & [=] & _)]. }
  destruct (test REGEX_EXTERNAL _) eqn:Eext; cbn [negb orb].
  2:{ split; [discriminate|]. intros (_ & _ & Hsh & _).
      apply external_complete in Hsh. congruence. }
  destruct (test REGEX_LOOOPBACK_URL _) eqn:Elo.
  { split; [discriminate | intros (_ & _ & _ & [=] & _)]. }
  destruct (test REGEX_RAWGIT _) eqn:Eraw.
  { split; [discriminate | intros (_ & _ & _ & _ & [=] & _)]. }
  split.
  - intros [= <-]. repeat split; try assumption; try reflexivity.
    apply external_sound, Eext.
  - intros (_ & _ & _ & _ & _ & ->). reflexivity.
Qed.

End Formatted.

Lemma exec_from_miss re i c s :
  rmatch (ignoreCase re) (source re) Some (MState (c :: s) i ∅) = None ->
  exec_from re i (c :: s) = exec_from re (S i) s.
Proof. intros H. cbn [exec_from]. rewrite H. reflexivity. Qed.

Lemma forallb_dot_ok s :
  forallb (fun c => negb (is_line_terminator c)) s = true <-> Forall dot_ok s.
Proof.
  rewrite forallb_forall, Forall_forall. unfold dot_ok.
  split; intros H c Hc.
  - apply list_elem_of_In in Hc. apply H in Hc. apply negb_true_iff in Hc. exact Hc.
  - apply negb_true_iff, H, list_elem_of_In, Hc.
Qed.

Lemma query_no_match_at s i :
  forallb (fun c => negb (is_line_terminator c)) s = false ->
  rmatch false (source REGEX_QUERY) Some (MState (c_qmark :: s) i ∅) = None.
Proof.
  intros Hs.
  destruct (rmatch false (source REGEX_QUERY) Some _) as [e|] eqn:E;
    [|reflexivity].
  apply rmatch_sound in E as (s' & Hm & _). norm_regex Hm. inv_matches.
  simpl in *. subst.
  assert (Hall : forallb (fun c => negb (is_line_terminator c)) (x ++ []) = true).
  { apply forallb_forall. intros c Hc. rewrite app_nil_r in Hc.
    apply list_elem_of_In in Hc.
    match goal with H : Forall _ x |- _ => rewrite Forall_forall in H; apply H, Hc end. }
  congruence.
Qed.

Lemma exec_query_total s : forall i,
  match exec_from REGEX_QUERY i s with
  | Some m =>
      exists suf, s = query_cut s ++ c_qmark :: suf
        /\ m_index m = (i + length (query_cut s))%nat
        /\ m_text m = c_qmark :: suf
  | None => query_cut s = s
  end.
Proof.
  induction s as [|c s IH]; intros i.
  - reflexivity.
  - cbn [query_cut]. destruct (N.eqb_spec c c_qmark) as [->|Hne]; cbn [andb].
    + destruct (forallb _ s) eqn:Es.
      * apply forallb_dot_ok in Es.
        destruct (exec_query_at_qmark s i Es) as (cp & ->).
        exists s. simpl. rewrite Nat.add_0_r. auto.
      * rewrite exec_from_miss by (apply query_no_match_at, Es).
        specialize (IH (S i)).
        destruct (exec_from REGEX_QUERY (S i) s) as [m|].
        -- destruct IH as (suf & E & Hi & Ht). exists suf.
           simpl. split; [f_equal; exact E|]. split; [lia | exact Ht].
        -- f_equal. exact IH.
    + rewrite exec_query_miss by assumption. specialize (IH (S i)).
      destruct (exec_from REGEX_QUERY (S i) s) as [m|].
      * destruct IH as (suf & E & Hi & Ht). exists suf.
        simpl. split; [f_equal; exact E|]. split; [lia | exact Ht].
      * f_equal. exact IH.
Qed.

(** X7: on every string, the replacement of [REGEX_QUERY] by the empty
    string keeps the text before the first question mark that no line
    terminator follows, and keeps the whole string when there is none. *)
Theorem strip_query_cut s : strip_query s = query_cut s.
Proof.
  unfold strip_query, replace, exec.
  pose proof (exec_query_total s 0) as H.
  destruct (exec_from REGEX_QUERY 0 s) as [m|]; [|congruence].
  destruct H as (suf & E & Hi & Ht). rewrite Hi, Ht. simpl.
  rewrite drop_ge.
  - rewrite app_nil_r. rewrite E at 2. apply take_app_length.
  - rewrite E at 1. rewrite length_app. simpl. lia.
Qed.

(** ** The colon of the date *)

Lemma tok_group_plus n cs R k w (t : jsstring) i cp x :
  w <> [] -> Forall (fun c => cset_match false cs c = true) w ->
  ends_run false cs t ->
  rmatch false R k (MState t (i + length w) (<[n := w]> cp)) = Some x ->
  rmatch false (RSeq (RGroup n (RPlus true (RChar cs))) R) k
    (MState (w ++ t) i cp) = Some x.
Proof.
  intros Hne Hw Ht Hk.
  change (rmatch false (RPlus true (RChar cs))
            (fun s' => rmatch false R k
               (set_cap n (consumed (MState (w ++ t) i cp) s') s'))
            (MState (w ++ t) i cp) = Some x).
  apply plus_greedy_some; [assumption..|].
  rewrite consumed_app. exact Hk.
Qed.

(** The match of [REGEX_DATE] at the slash of the year. *)
Lemma date_match_here y h (t : jsstring) i :
  y <> [] -> Forall (fun c => is_digit c = true) y ->
  h <> [] -> Forall (fun c => is_digit c = true) h ->
  ends_run false CsDigit t ->
  exists j,
    rmatch false (source REGEX_DATE) Some
      (MState (c_slash :: y ++ c_colon :: h ++ t) i ∅)
    = Some (MState t j (<[2%nat := h]> (<[1%nat := c_slash :: y]> ∅))).
Proof.
  intros Hy1 Hy2 Hh1 Hh2 Ht. eexists.
  change (rmatch false (source REGEX_DATE) Some
            (MState (c_slash :: y ++ c_colon :: h ++ t) i ∅))
    with (rmatch false (RPlus true (RChar CsDigit))
            (fun s' => rmatch false
               (RSeq (lit ":") (RSeq (RGroup 2 (RPlus true digit)) REmpty)) Some
               (set_cap 1
                  (consumed (MState ((c_slash :: y) ++ c_colon :: h ++ t) i ∅) s')
                  s'))
            (MState (y ++ c_colon :: h ++ t) (S i) ∅)).
  apply plus_greedy_some; [assumption | assumption | |].
  - intros c [= <-]. reflexivity.
  - rewrite consumed_app. unfold set_cap. cbn [rest idx caps].
    apply (tok_lit (str ":")).
    apply tok_group_plus; [assumption..|]. reflexivity.
Qed.

Lemma date_no_match_here c (s : jsstring) i :
  (c = c_slash -> forall c', head s = Some c' -> is_digit c' = false) ->
  rmatch false (source REGEX_DATE) Some (MState (c :: s) i ∅) = None.
Proof.
  intros H.
  let r := eval vm_compute in (source REGEX_DATE) in
    change (source REGEX_DATE) with r.
  cbn [rmatch rest]. cbn [cset_match idx caps].
  destruct (N.eqb_spec c 47) as [->|_]; [|reflexivity].
  destruct s as [|c' s]; [reflexivity|].
  cbn [is_digit]. rewrite (H eq_refl c' eq_refl). reflexivity.
Qed.

Lemma exec_date a : forall y h (t : jsstring) i,
  no_date_start a = true ->
  y <> [] -> Forall (fun c => is_digit c = true) y ->
  h <> [] -> Forall (fun c => is_digit c = true) h ->
  ends_run false CsDigit t ->
  exec_from REGEX_DATE i (a ++ c_slash :: y ++ c_colon :: h ++ t)
  = Some (MatchResult (i + length a) (c_slash :: y ++ c_colon :: h)
            (<[2%nat := h]> (<[1%nat := c_slash :: y]> ∅))).
Proof.
  induction a as [|c a IH]; intros y h t i Ha Hy1 Hy2 Hh1 Hh2 Ht.
  - destruct (date_match_here y h t i Hy1 Hy2 Hh1 Hh2 Ht) as (j & Hj).
    cbn [app]. rewrite (exec_from_hit REGEX_DATE i _ _ Hj). cbn [rest caps].
    rewrite Nat.add_0_r. f_equal. f_equal.
    replace (c_slash :: y ++ c_colon :: h ++ t)
      with ((c_slash :: y ++ c_colon :: h) ++ t)
      by (simpl; rewrite <- app_assoc; reflexivity).
    rewrite length_app, Nat.add_sub. apply take_app_length.
  - cbn [app]. rewrite exec_from_miss.
    + rewrite IH; try assumption.
      * simpl. rewrite Nat.add_succ_r. reflexivity.
      * cbn [no_date_start] in Ha. destruct a as [|c2 a]; [reflexivity|].
        apply andb_true_iff in Ha as [_ Ha]. exact Ha.
    + apply date_no_match_here. intros -> c' Hc'.
      destruct a as [|c2 a].
      * simpl in Hc'. injection Hc' as <-. reflexivity.
      * simpl in Hc'. injection Hc' as <-. cbn [no_date_start] in Ha.
        apply andb_true_iff in Ha as [Ha _]. rewrite N.eqb_refl in Ha.
        cbn [andb] in Ha. apply negb_true_iff in Ha. exact Ha.
Qed.

(** X8: [REGEX_DATE] turns the colon between the year and the hour into
    a space and leaves the rest of the date as it is, when no slash before
    the year is followed by a digit. *)
Theorem date_colon_replaced a y h (t : jsstring) :
  no_date_start a = true ->
  y <> [] -> Forall (fun c => is_digit c = true) y ->
  h <> [] -> Forall (fun c => is_digit c = true) h ->
  ends_run false CsDigit t ->
  replace REGEX_DATE date_template (a ++ c_slash :: y ++ c_colon :: h ++ t)
  = a ++ c_slash :: y ++ c_space :: h ++ t.
Proof.
  intros Ha Hy1 Hy2 Hh1 Hh2 Ht. unfold replace, exec.
  rewrite (exec_date a y h t 0 Ha Hy1 Hy2 Hh1 Hh2 Ht).
  cbn [m_index m_text m_caps Nat.add].
  rewrite take_app_length.
  replace (a ++ c_slash :: y ++ c_colon :: h ++ t)
    with (a ++ (c_slash :: y ++ c_colon :: h) ++ t)
    by (simpl; rewrite <- app_assoc; reflexivity).
  rewrite <- drop_drop, !drop_app_length.
  unfold date_template. cbn [map concat expand m_caps].
  rewrite lookup_insert_eq, lookup_insert_ne by done. rewrite lookup_insert_eq.
  change (str " ") with [c_space]. cbn [default from_option id].
  rewrite app_nil_r. cbn [app]. rewrite <- !app_assoc. reflexivity.
Qed.

(** X9: [REGEX_EXTERNAL] matches exactly the strings of [external_shape]:
    a slash, three non-empty runs of characters each followed by a slash,
    one more character, and anything after it.  The characters of the runs
    and the one after them are any but line terminators, the slash among
    them: a run is not a segment of the path, and may be made of slashes
    alone. *)
Theorem external_test_iff p :
  test REGEX_EXTERNAL p = true <-> external_shape p.
Proof. split; [apply external_sound | apply external_complete]. Qed.

Lemma clf_mandatory line m n :
  mandatory n (source REGEX_CLF) = true ->
  exec REGEX_CLF line = Some m -> is_Some (m_caps m !! n).
Proof.
  intros Hn H.
  apply (exec_anchored REGEX_CLF _ _ _ eq_refl) in H as (s' & H & Hc & _).
  rewrite Hc.
  assert (H' : rmatches false (source REGEX_CLF) (MState line 0 ∅) s').
  { eapply M_seq; [constructor; reflexivity | exact H]. }
  exact (caps_mandatory _ _ _ _ H' n Hn).
Qed.

Section Errors.
Variable conf : config.
Variable Date_parse : jsstring -> option Z.

Lemma parsed_field_hit line m n :
  exec REGEX_CLF line = Some m -> parsed_field line n = m_caps m !! n.
Proof. intros H. unfold parsed_field. rewrite H. reflexivity. Qed.

Lemma parsed_field_miss line n :
  exec REGEX_CLF line = None -> parsed_field line n = None.
Proof. intros H. unfold parsed_field. rewrite H. reflexivity. Qed.

(** X6: [parseLine] throws exactly on the lines that match [REGEX_CLF]
    without the quoted referrer, with a status other than 403 and a path
    that passes the path rule; the error is a TypeError. *)
Theorem parseLine_throws_iff line e :
  parseLine conf Date_parse line = Throw e
  <->
  exists p,
    parsed_field line 4 = Some p
    /\ parsed_field line 5 <> Some (str "403")
    /\ truthy_get (statsIgnorePaths conf) (strip_query p) = false
    /\ test REGEX_EXTERNAL (strip_query p) = true
    /\ parsed_field line 7 = None.
Proof.
  unfold parseLine.
  destruct (exec REGEX_CLF line) as [m|] eqn:Hm.
  2:{ rewrite (parsed_field_miss line 4 Hm).
      split; [discriminate | intros (p & [=] & _)]. }
  rewrite !(parsed_field_hit line m) by exact Hm.
  destruct (clf_mandatory line m 2 eq_refl Hm) as [d H2].
  destruct (clf_mandatory line m 4 eq_refl Hm) as [p H4].
  destruct (clf_mandatory line m 5 eq_refl Hm) as [st H5].
  rewrite H4, H5. cbn [strict_eq method_replace mbind completion_bind].
  fold (strip_query p).
  destruct (bool_decide_reflect (st = str "403")) as [->|Hst].
  { split; [discriminate|].
    intros (p' & _ & Hn & _). exfalso. apply Hn. reflexivity. }
  destruct (truthy_get _ (strip_query p)) eqn:Eign; cbn [orb].
  { split; [discriminate | intros (p' & [= <-] & _ & Hi & _); congruence]. }
  destruct (test REGEX_EXTERNAL (strip_query p)) eqn:Eext; cbn [negb].
  2:{ split; [discriminate | intros (p' & [= <-] & _ & _ & Hx & _); congruence]. }
  destruct (m_caps m !! 7%nat) as [r|] eqn:H7;
    cbn [method_replace mbind completion_bind].
  - fold (strip_query r).
    split; [|intros (p' & _ & _ & _ & _ & [=])].
    destruct (test REGEX_LOOOPBACK_URL _); [discriminate|].
    destruct (_ && _); [discriminate|].
    rewrite H2. discriminate.
  - split; [|destruct e; reflexivity].
    intros _. exists p. repeat split; try assumption. congruence.
Qed.

End Errors.

(** ** The handler on a stream *)

Section Stream.
Variable conf : config.
Variable Date_parse : jsstring -> option Z.

Lemma parse_lines_app l1 l2 lg :
  parse_lines conf Date_parse (l1 ++ l2) lg
  = match parse_lines conf Date_parse l1 lg with
    | (lg1, Normal _) => parse_lines conf Date_parse l2 lg1
    | (lg1, Throw err) => (lg1, Throw err)
    end.
Proof.
  revert lg. induction l1 as [|l l1 IH]; intros lg; simpl; [reflexivity|].
  destruct (parseLine conf Date_parse l) as [[e|]|err]; [apply IH..|reflexivity].
Qed.

Lemma run_app logPath evs1 : forall st evs2,
  run conf Date_parse logPath st (evs1 ++ evs2)
  = run conf Date_parse logPath (run conf Date_parse logPath st evs1) evs2.
Proof.
  induction evs1 as [|ev evs1 IH]; intros st evs2; [reflexivity|].
  cbn [app run]. destruct (uncaught st) eqn:Eu.
  - destruct evs2; [reflexivity|]. cbn [run]. rewrite Eu. reflexivity.
  - apply IH.
Qed.

(** The chunks of a stream, handled one after the other, come to the same
    as the lines of the stream parsed in order, as long as no line makes
    [parseLine] throw. *)
Lemma run_readables logPath cs : forall st lg,
  uncaught st = None ->
  parse_lines conf Date_parse (feed (overflow st) (Some <$> cs)).1 (logged st)
    = (lg, Normal tt) ->
  run conf Date_parse logPath st (readables cs)
  = ModuleState (enabled st) (spawned st)
      (feed (overflow st) (Some <$> cs)).2 lg None.
Proof.
  induction cs as [|c cs IH]; intros st lg Hu Hp.
  - simpl in *. injection Hp as <-. destruct st. simpl in *. subst. reflexivity.
  - cbn [readables fmap list_fmap run]. rewrite Hu. unfold handle.
    cbn [fmap list_fmap feed] in Hp |- *.
    destruct (split_chunk (overflow st) (Some c)) as [l1 o1].
    destruct (feed o1 (Some <$> cs)) as [l2 o2] eqn:Ef.
    cbn [fst snd] in Hp |- *. rewrite parse_lines_app in Hp.
    destruct (parse_lines conf Date_parse l1 (logged st)) as [lg1 [[]|err]];
      [|discriminate].
    change (list_fmap jsstring tail_event (fun c => OnReadable (Some c)) cs)
      with (readables cs).
    rewrite (IH _ lg); cbn [enabled spawned overflow logged uncaught].
    + rewrite Ef. reflexivity.
    + reflexivity.
    + rewrite Ef. exact Hp.
Qed.

Lemma run_text_chunks logPath cs st lg :
  uncaught st = None -> c_lf ∉ overflow st ->
  parse_lines conf Date_parse
    (stream_lines (overflow st ++ concat cs)) (logged st) = (lg, Normal tt) ->
  run conf Date_parse logPath st (readables cs)
  = ModuleState (enabled st) (spawned st)
      (stream_rest (overflow st ++ concat cs)) lg None.
Proof.
  intros Hu Ho Hp. unfold stream_lines, stream_rest in *.
  rewrite <- (feed_stream cs _ Ho) in Hp |- *.
  apply run_readables; assumption.
Qed.

(** X13: the chunks of a stream, handled one after the other, come to the
    same as the complete lines of the whole stream parsed in order, with
    what follows the last terminator left in the overflow, as long as no
    line makes [parseLine] throw. *)
Theorem run_stream logPath cs st lg :
  uncaught st = None -> c_lf ∉ overflow st ->
  parse_lines conf Date_parse
    (stream_lines (overflow st ++ concat cs)) (logged st) = (lg, Normal tt) ->
  run conf Date_parse logPath st (readables cs)
  = ModuleState (enabled st) (spawned st)
      (stream_rest (overflow st ++ concat cs)) lg None.
Proof. apply run_text_chunks. Qed.

Lemma stream_rest_no_lf s : c_lf ∉ stream_rest s.
Proof.
  unfold stream_rest.
  destruct (split_unsplit s) as (ls & o & Hsp & _ & _ & Ho).
  rewrite Hsp, pop_snoc. exact Ho.
Qed.

(** X14: what the overflow holds when the subprocess exits is never
    parsed: after the exit the lines are those of the new stream alone,
    and the subprocess is started again with the scrollback 0. *)
Theorem overflow_dropped_at_exit logPath cs1 cs2 st lg1 lg2 :
  uncaught st = None -> c_lf ∉ overflow st ->
  parse_lines conf Date_parse
    (stream_lines (overflow st ++ concat cs1)) (logged st) = (lg1, Normal tt) ->
  parse_lines conf Date_parse (stream_lines (concat cs2)) lg1
    = (lg2, Normal tt) ->
  run conf Date_parse logPath st (readables cs1 ++ OnExit :: readables cs2)
  = ModuleState (enabled st) (spawned st ++ [Spawn 0 logPath])
      (stream_rest (concat cs2)) lg2 None.
Proof.
  intros Hu Ho H1 H2.
  rewrite run_app, (run_text_chunks logPath cs1 st lg1 Hu Ho H1).
  cbn [run uncaught handle].
  rewrite (run_text_chunks logPath cs2 _ lg2); cbn [tail enabled spawned overflow
    logged uncaught app]; [reflexivity | reflexivity | apply not_elem_of_nil
      | exact H2].
Qed.

(** The overflow never holds a line terminator. *)
Lemma handle_overflow logPath st ev :
  c_lf ∉ overflow st ->
  c_lf ∉ overflow (handle conf Date_parse logPath st ev).
Proof.
  intros Ho. destruct ev as [| |chunk]; unfold handle.
  - exact Ho.
  - apply not_elem_of_nil.
  - unfold split_chunk.
    destruct (split_unsplit (overflow st ++ chunk_text chunk))
      as (ls & o & Hsp & _ & _ & Ho').
    rewrite Hsp, pop_snoc.
    destruct (parse_lines conf Date_parse ls (logged st)) as [lg c].
    exact Ho'.
Qed.

(** X15: in every run of the module the overflow holds no line
    terminator. *)
Theorem overflow_no_terminator existsSync logPath evs :
  c_lf ∉ overflow (run conf Date_parse logPath (init conf existsSync) evs).
Proof.
  assert (H : forall st, c_lf ∉ overflow st ->
            c_lf ∉ overflow (run conf Date_parse logPath st evs)).
  { induction evs as [|ev evs IH]; intros st Ho; cbn [run]; [exact Ho|].
    destruct (uncaught st); [exact Ho|]. apply IH, handle_overflow, Ho. }
  apply H. unfold init.
  destruct (upstreamRequestLog conf) as [p|]; [|apply not_elem_of_nil].
  destruct (_ || _); apply not_elem_of_nil.
Qed.

(** The flag: on when the log exists, off for good after an error of the
    subprocess. *)
Lemma run_enabled logPath evs : forall st,
  (enabled (run conf Date_parse logPath st evs) = true -> enabled st = true)
  /\ (uncaught (run conf Date_parse logPath st evs) = None ->
      (enabled (run conf Date_parse logPath st evs) = true
       <-> enabled st = true /\ OnError ∉ evs)).
Proof.
  induction evs as [|ev evs IH]; intros st; cbn [run].
  - split; [auto|]. intros _. split; [intros H; split; [exact H | apply not_elem_of_nil]
                                    | intros [H _]; exact H].
  - destruct (uncaught st) eqn:Eu.
    + split; [auto|]. intros Hu. congruence.
    + destruct (IH (handle conf Date_parse logPath st ev)) as [IH1 IH2].
      assert (He : enabled (handle conf Date_parse logPath st ev)
                   = match ev with OnError => false | _ => enabled st end).
      { destruct ev as [| |chunk]; unfold handle; [reflexivity..|].
        destruct (split_chunk _ _) as [l o].
        destruct (parse_lines _ _ _ _) as [lg c]. reflexivity. }
      rewrite He in IH1, IH2. split.
      * intros H. apply IH1 in H. destruct ev; [discriminate | exact H..].
      * intros Hu. rewrite (IH2 Hu), not_elem_of_cons.
        destruct ev as [| |chunk].
        -- split; [intros [[=] _] | intros (_ & [Hn _]); congruence].
        -- split; [intros [H1 H2]; auto | intros (H1 & _ & H2); auto].
        -- split; [intros [H1 H2]; auto | intros (H1 & _ & H2); auto].
Qed.

(** X16: the flag is on after [init] exactly when a log path is
    configured and the file exists, and nothing is spawned otherwise; it
    never comes back on, and after a run without an uncaught error it is
    on exactly when it was on at the start and the subprocess reported no
    error. *)
Theorem enabled_flag existsSync logPath evs :
  let final := run conf Date_parse logPath (init conf existsSync) evs in
  (enabled (init conf existsSync) = true
   <-> exists l, upstreamRequestLog conf = Some l /\ l <> []
                 /\ existsSync l = true)
  /\ (enabled (init conf existsSync) = false ->
      spawned (init conf existsSync) = [])
  /\ (enabled final = true -> enabled (init conf existsSync) = true)
  /\ (uncaught final = None ->
      (enabled final = true
       <-> enabled (init conf existsSync) = true /\ OnError ∉ evs)).
Proof.
  intros final. split; [|split].
  - unfold init. destruct (upstreamRequestLog conf) as [p|].
    + destruct (bool_decide_reflect (p = [])) as [->|Hp]; simpl.
      * split; [discriminate | intros (l & [= <-] & Hl & _); done].
      * destruct (existsSync p) eqn:Ex; simpl.
        -- split; [eauto | reflexivity].
        -- split; [discriminate | intros (l & [= <-] & _ & Hl); congruence].
    + simpl. split; [discriminate | intros (l & [=] & _)].
  - unfold init. destruct (upstreamRequestLog conf) as [p|]; [|reflexivity].
    destruct (_ || _); [reflexivity | discriminate].
  - apply run_enabled.
Qed.

End Stream.

Section TokenInversion.
Variable icase : bool.

Lemma lit_inv l : forall (t : jsstring) i cp s',
  rmatches icase (RLit l) (MState t i cp) s' ->
  exists w t', t = w ++ t' /\ s' = MState t' (i + length w) cp
    /\ Forall2 (fun c p => cset_match icase (CsChar p) c = true) w l.
Proof.
  induction l as [|p l IH]; intros t i cp s' H; simpl in H.
  - inversion H; subst. exists [], t. rewrite Nat.add_0_r.
    repeat split. constructor.
  - inversion H as [| |r1 r2 s0 s1 s2 Ha Hb| | | | | | |]; subst.
    inversion Ha as [|cs c t1 i1 cp1 Hc| | | | | | | |]; subst.
    apply IH in Hb as (w & t' & -> & -> & Hw).
    exists (c :: w), t'. simpl. rewrite Nat.add_succ_r.
    repeat split. constructor; assumption.
Qed.

Lemma plus_chars_inv g cs (t : jsstring) i cp s' :
  rmatches icase (RPlus g (RChar cs)) (MState t i cp) s' ->
  exists w t', t = w ++ t' /\ s' = MState t' (i + length w) cp
    /\ w <> [] /\ Forall (fun c => cset_match icase cs c = true) w.
Proof.
  intros H. unfold RPlus in H.
  inversion H as [| |r1 r2 s0 s1 s2 Ha Hb| | | | | | |]; subst.
  inversion Ha as [|cs' c t1 i1 cp1 Hc| | | | | | | |]; subst.
  apply star_chars_inv in Hb as (w & t' & -> & -> & Hw).
  exists (c :: w), t'. simpl. rewrite Nat.add_succ_r.
  repeat split; [discriminate | constructor; assumption].
Qed.

End TokenInversion.

Lemma lit_inv_exact l (t : jsstring) i cp s' :
  rmatches false (RLit l) (MState t i cp) s' ->
  exists t', t = l ++ t' /\ s' = MState t' (i + length l) cp.
Proof.
  intros H. apply lit_inv in H as (w & t' & -> & -> & Hw).
  assert (w = l) as ->.
  { induction Hw as [|c p w l Hc _ IH]; [reflexivity|].
    simpl in Hc. apply N.eqb_eq in Hc. congruence. }
  eauto.
Qed.

Lemma class_no_space w :
  Forall (fun c => cset_match false CsNotSpace c = true) w -> no_space w.
Proof. apply not_space_run. Qed.

Lemma class_dot_ok w :
  Forall (fun c => cset_match false CsDot c = true) w -> Forall dot_ok w.
Proof.
  intros H. eapply Forall_impl; [exact H|]. intros c Hc. simpl in Hc.
  apply negb_true_iff in Hc. exact Hc.
Qed.

Lemma class_no_quote w :
  Forall (fun c => cset_match false (CsNoneOf [c_quote]) c = true) w ->
  c_quote ∉ w.
Proof.
  intros H Hin. rewrite Forall_forall in H. apply H in Hin. discriminate Hin.
Qed.

Lemma group_plus_inv icase n g cs (t : jsstring) i cp s' :
  rmatches icase (RGroup n (RPlus g (RChar cs))) (MState t i cp) s' ->
  exists w t', t = w ++ t' /\ s' = MState t' (i + length w) (<[n := w]> cp)
    /\ w <> [] /\ Forall (fun c => cset_match icase cs c = true) w.
Proof.
  intros H. inversion H as [| | | | | | |n' r s0 s1 Hm| |]; subst.
  apply plus_chars_inv in Hm as (w & t' & -> & -> & Hne & Hw).
  exists w, t'. rewrite consumed_app. unfold set_cap. simpl. auto.
Qed.

Lemma group_star_inv icase n g cs (t : jsstring) i cp s' :
  rmatches icase (RGroup n (RStar g (RChar cs))) (MState t i cp) s' ->
  exists w t', t = w ++ t' /\ s' = MState t' (i + length w) (<[n := w]> cp)
    /\ Forall (fun c => cset_match icase cs c = true) w.
Proof.
  intros H. inversion H as [| | | | | | |n' r s0 s1 Hm| |]; subst.
  apply star_chars_inv in Hm as (w & t' & -> & -> & Hw).
  exists w, t'. rewrite consumed_app. unfold set_cap. simpl. auto.
Qed.

Lemma quote_inv (t : jsstring) i cp s' :
  rmatches false quote (MState t i cp) s' ->
  exists t', t = c_quote :: t' /\ s' = MState t' (S i) cp.
Proof.
  intros H. inversion H as [|cs c t1 i1 cp1 Hc| | | | | | | |]; subst.
  simpl in Hc. apply N.eqb_eq in Hc. subst. eauto.
Qed.

(** Inversion of a match token by token. *)
Ltac inv_tokens :=
  repeat match goal with
  | H : rmatches _ (RSeq _ _) _ _ |- _ => inversion H; clear H; subst
  | H : rmatches _ REmpty _ _ |- _ => inversion H; clear H; subst
  | H : rmatches _ REol (MState _ _ _) _ |- _ =>
      inversion H; clear H; cbn [rest] in *; subst
  | H : rmatches _ (RGroup _ (RPlus _ (RChar _))) (MState _ _ _) _ |- _ =>
      apply group_plus_inv in H; destruct H as (? & ? & ? & ? & ? & ?); subst
  | H : rmatches _ (RGroup _ (RStar _ (RChar _))) (MState _ _ _) _ |- _ =>
      apply group_star_inv in H; destruct H as (? & ? & ? & ? & ?); subst
  | H : rmatches false (lit ?s) (MState _ _ _) _ |- _ =>
      apply (lit_inv_exact (str s)) in H; destruct H as (? & ? & ?); subst
  | H : rmatches false quote (MState _ _ _) _ |- _ =>
      apply quote_inv in H; destruct H as (? & ? & ?); subst
  | H : rmatches _ (RPlus _ (RChar _)) (MState _ _ _) _ |- _ =>
      apply plus_chars_inv in H; destruct H as (? & ? & ? & ? & ? & ?); subst
  end.

Lemma clf_match_shape line s' :
  rmatches false
    (RCat [ RGroup 1 (RPlus true not_space); lit " ";
            RPlus true not_space; lit " ";
            RPlus true not_space; lit " [";
            RGroup 2 (RPlus false dot); lit "] "; quote;
            RGroup 3 (RPlus true not_space); lit " ";
            RGroup 4 (RPlus true not_space); lit " ";
            RPlus true not_space; quote; lit " ";
            RGroup 5 (RPlus true not_space); lit " ";
            RGroup 6 (RPlus true not_space);
            ROpt (RCat [ lit " "; quote; RGroup 7 (RStar true not_quote);
                         quote; lit " "; quote;
                         RGroup 8 (RStar true not_quote); quote ]);
            REol ])
    (MState line 0 ∅) s' ->
  exists f,
    entry_shape f
    /\ ((line = format_clf f /\ caps s' = entry_caps f)
        \/ exists referrer useragent,
             (c_quote ∉ referrer) /\ (c_quote ∉ useragent)
             /\ line = format_combined f referrer useragent
             /\ caps s' = combined_caps f referrer useragent).
Proof.
  intros H. cbn [RCat] in H. unfold not_space, dot, not_quote in H.
  inv_tokens.
  match goal with H : rmatches _ (ROpt _) _ _ |- _ =>
    unfold ROpt in H; inversion H; clear H; subst end.
  all: cbn [RCat] in *.
  all: inv_tokens.
  all: match goal with
       | |- context [ ?ip ++ str " " ++ ?id ++ str " " ++ ?us ++ str " [" ++ ?d
                        ++ str "] " ++ c_quote :: ?m ++ str " " ++ ?p ++ str " "
                        ++ ?pr ++ c_quote :: str " " ++ ?st ++ str " " ++ ?b
                        ++ _ ] =>
           exists (LogEntry ip id us d m p pr st b)
       end.
  all: split;
    [ unfold entry_shape, token; cbn [le_ip le_ident le_user le_date le_method
        le_path le_protocol le_status le_bytes];
      repeat split; try assumption;
      try (apply class_no_space; assumption); apply class_dot_ok; assumption |].
  - right.
    match goal with
    | |- context [ <[8%nat := ?ua]> (<[7%nat := ?ref]> _) ] => exists ref, ua
    end.
    split; [apply class_no_quote; assumption|].
    split; [apply class_no_quote; assumption|].
    split; reflexivity.
  - left. split; [|reflexivity].
    unfold format_clf, format_entry. cbn [le_ip le_ident le_user le_date
      le_method le_path le_protocol le_status le_bytes]. reflexivity.
Qed.

(** X3: every line that [REGEX_CLF] matches is the line of an entry in
    Common or in Combined Log Format, and the captures are the fields of
    that entry; nothing else is parsed. *)
Theorem clf_match_is_entry line m :
  exec REGEX_CLF line = Some m ->
  exists f,
    entry_shape f
    /\ ((line = format_clf f /\ m_caps m = entry_caps f)
        \/ exists referrer useragent,
             (c_quote ∉ referrer) /\ (c_quote ∉ useragent)
             /\ line = format_combined f referrer useragent
             /\ m_caps m = combined_caps f referrer useragent).
Proof.
  intros H.
  apply (exec_anchored REGEX_CLF _ _ _ eq_refl) in H as (s' & H & -> & _).
  apply clf_match_shape, H.
Qed.

Lemma canonicalize_nonletter c p :
  is_letter p = false -> canonicalize c = canonicalize p -> c = p.
Proof.
  unfold is_letter, canonicalize. intros Hp.
  apply orb_false_iff in Hp as [Hu Hl]. rewrite Hl.
  destruct (N.leb_spec 97 c), (N.leb_spec c 122); simpl; try (intros; assumption).
  intros <-. exfalso.
  apply andb_false_iff in Hu as [Hu|Hu]; apply N.leb_gt in Hu; lia.
Qed.

Lemma lit_inv_ieq l (t : jsstring) i cp s' :
  rmatches true (RLit l) (MState t i cp) s' ->
  exists w t', t = w ++ t' /\ s' = MState t' (i + length w) cp /\ ieq w l.
Proof.
  intros H. apply lit_inv in H as (w & t' & -> & -> & Hw).
  exists w, t'. repeat split. unfold ieq.
  induction Hw as [|c p w l Hc _ IH]; [reflexivity|].
  simpl in Hc. apply N.eqb_eq in Hc. simpl. congruence.
Qed.

Lemma lit_inv_nonletter l (t : jsstring) i cp s' :
  forallb (fun p => negb (is_letter p)) l = true ->
  rmatches true (RLit l) (MState t i cp) s' ->
  exists t', t = l ++ t' /\ s' = MState t' (i + length l) cp.
Proof.
  intros Hl H. apply lit_inv_ieq in H as (w & t' & -> & -> & Hw).
  assert (w = l) as ->; [|eauto].
  unfold ieq in Hw. revert l Hl Hw.
  induction w as [|c w IH]; intros [|p l] Hl Hw; try discriminate;
    [reflexivity|].
  simpl in Hl, Hw. apply andb_true_iff in Hl as [Hp Hl].
  apply negb_true_iff in Hp. injection Hw as Hc Hw.
  rewrite (canonicalize_nonletter c p Hp Hc), (IH l Hl Hw). reflexivity.
Qed.

Lemma zeros_of_class w :
  Forall (fun c => cset_match true (CsChar (N_of_ascii "0")) c = true) w ->
  zeros w.
Proof.
  intros H. eapply Forall_impl; [exact H|]. intros c Hc. simpl in Hc.
  apply N.eqb_eq in Hc. apply (canonicalize_nonletter c 48 eq_refl Hc).
Qed.

Ltac inv_seq H H1 H2 :=
  let K := fresh in
  inversion H as [| |? ? ? ? ? H1 K| | | | | | |]; subst; clear H;
  rename K into H2.

Ltac inv_alt H :=
  let K := fresh in
  inversion H as [| | |? ? ? ? K|? ? ? ? K| | | | |]; subst; clear H;
  rename K into H.

Lemma zero_groups_inv n : forall (t : jsstring) i cp s',
  rmatches true (RTimes n (RSeq (RPlus true (ch "0")) (lit ":")))
    (MState t i cp) s' ->
  exists w t', t = w ++ t' /\ s' = MState t' (i + length w) cp
    /\ zero_groups n w.
Proof.
  induction n as [|n IH]; intros t i cp s' H; cbn [RTimes] in H.
  - inversion H; subst. exists [], t. rewrite Nat.add_0_r.
    repeat split. constructor.
  - inv_seq H Ha Hb. inv_seq Ha Hz Hc.
    apply plus_chars_inv in Hz as (z & t1 & -> & -> & Hz1 & Hz2).
    apply (lit_inv_nonletter (str ":") _ _ _ _ eq_refl) in Hc as (t2 & -> & ->).
    apply IH in Hb as (w & t' & -> & -> & Hw).
    exists (z ++ str ":" ++ w), t'. split; [rewrite <- !app_assoc; reflexivity|].
    split; [f_equal; rewrite !length_app; lia|].
    constructor; [assumption | apply zeros_of_class; assumption | exact Hw].
Qed.

Lemma ipv6_prefix_inv (t : jsstring) i cp s' :
  rmatches true
    (RAlt (RTimes 7 (RSeq (RPlus true (ch "0")) (lit ":"))) (lit "::"))
    (MState t i cp) s' ->
  exists pre t', t = pre ++ t' /\ s' = MState t' (i + length pre) cp
    /\ (pre = str "::" \/ zero_groups 7 pre).
Proof.
  intros H. inv_alt H.
  - apply (zero_groups_inv 7) in H as (w & t' & -> & -> & Hw).
    exists w, t'. auto.
  - apply (lit_inv_nonletter (str "::") _ _ _ _ eq_refl) in H as (t' & -> & ->).
    exists (str "::"), t'. auto.
Qed.

Lemma prefix_length_inv (t : jsstring) i cp s' :
  rmatches true (ROpt (lit "/128")) (MState t i cp) s' ->
  exists m t', t = m ++ t' /\ s' = MState t' (i + length m) cp
    /\ (m = [] \/ m = str "/128").
Proof.
  intros H. unfold ROpt in H. inv_alt H.
  - apply (lit_inv_nonletter (str "/128") _ _ _ _ eq_refl) in H as (t' & -> & ->).
    exists (str "/128"), t'. auto.
  - inversion H; subst. exists [], t. rewrite Nat.add_0_r. auto.
Qed.

Lemma ipv6_host_inv (t : jsstring) i cp s' :
  rmatches true
    (RCat [ lit "[";
            RAlt (RTimes 7 (RSeq (RPlus true (ch "0")) (lit ":"))) (lit "::");
            RStar true (ch "0"); lit "1"; ROpt (lit "/128"); lit "]" ])
    (MState t i cp) s' ->
  exists a t', t = (str "[" ++ a ++ str "]") ++ t'
    /\ s' = MState t' (i + length (str "[" ++ a ++ str "]")) cp
    /\ ipv6_loopback a.
Proof.
  intros H. cbn [RCat] in H.
  inv_seq H H1 H. inv_seq H H2 H. inv_seq H H3 H. inv_seq H H4 H.
  inv_seq H H5 H. inv_seq H H6 H. inversion H; subst; clear H.
  apply (lit_inv_nonletter (str "[") _ _ _ _ eq_refl) in H1 as (t1 & -> & ->).
  apply ipv6_prefix_inv in H2 as (pre & t2 & -> & -> & Hpre).
  apply star_chars_inv in H3 as (z & t3 & -> & -> & Hz).
  apply (lit_inv_nonletter (str "1") _ _ _ _ eq_refl) in H4 as (t4 & -> & ->).
  apply prefix_length_inv in H5 as (m & t5 & -> & -> & Hm).
  apply (lit_inv_nonletter (str "]") _ _ _ _ eq_refl) in H6 as (t6 & -> & ->).
  exists (pre ++ z ++ str "1" ++ m), t6.
  split; [rewrite <- !app_assoc; reflexivity|].
  split; [f_equal; rewrite !length_app; simpl; lia|].
  exists pre, z, m. split; [reflexivity|]. split; [assumption|].
  split; [apply zeros_of_class; assumption | assumption].
Qed.

Lemma loopback_host_inv (t : jsstring) i cp s' :
  rmatches true
    (RAlt (lit "localhost")
       (RAlt (lit "127.0.0.1")
          (RCat [ lit "[";
                  RAlt (RTimes 7 (RSeq (RPlus true (ch "0")) (lit ":")))
                       (lit "::");
                  RStar true (ch "0"); lit "1"; ROpt (lit "/128");
                  lit "]" ])))
    (MState t i cp) s' ->
  exists h t', t = h ++ t' /\ s' = MState t' (i + length h) cp
    /\ loopback_host h.
Proof.
  intros H. inv_alt H.
  - apply lit_inv_ieq in H as (w & t' & -> & -> & Hw).
    exists w, t'. repeat split. left. exact Hw.
  - inv_alt H.
    + apply (lit_inv_nonletter (str "127.0.0.1") _ _ _ _ eq_refl) in H
        as (t' & -> & ->).
      exists (str "127.0.0.1"), t'. repeat split. right. left. reflexivity.
    + apply ipv6_host_inv in H as (a & t' & -> & -> & Ha).
      exists (str "[" ++ a ++ str "]"), t'. repeat split.
      right. right. exists a. auto.
Qed.

Lemma loopback_port_inv (t : jsstring) i cp s' :
  rmatches true (ROpt (RSeq (lit ":") (RPlus true digit))) (MState t i cp) s' ->
  exists p t', t = p ++ t' /\ s' = MState t' (i + length p) cp
    /\ port_suffix p.
Proof.
  intros H. unfold ROpt, digit in H. inv_alt H.
  - inv_seq H H1 H2.
    apply (lit_inv_nonletter (str ":") _ _ _ _ eq_refl) in H1 as (t1 & -> & ->).
    apply plus_chars_inv in H2 as (ds & t2 & -> & -> & Hd1 & Hd2).
    exists (str ":" ++ ds), t2. split; [rewrite <- app_assoc; reflexivity|].
    split; [f_equal; rewrite length_app; lia|].
    right. exists ds. auto.
  - inversion H; subst. exists [], t. rewrite Nat.add_0_r. repeat split. left.
    reflexivity.
Qed.

Lemma ieq_app a1 a2 l1 l2 : ieq a1 l1 -> ieq a2 l2 -> ieq (a1 ++ a2) (l1 ++ l2).
Proof. unfold ieq. intros H1 H2. rewrite !map_app, H1, H2. reflexivity. Qed.

Lemma opt_lit_inv s (t : jsstring) i cp s' :
  rmatches true (ROpt (lit s)) (MState t i cp) s' ->
  exists w t', t = w ++ t' /\ s' = MState t' (i + length w) cp
    /\ (w = [] \/ ieq w (str s)).
Proof.
  intros H. unfold ROpt in H. inv_alt H.
  - apply lit_inv_ieq in H as (w & t1 & -> & -> & Hw). exists w, t1. auto.
  - inversion H; subst. exists [], t. rewrite Nat.add_0_r. auto.
Qed.

Lemma loopback_sound u : test REGEX_LOOOPBACK_URL u = true -> loopback_url u.
Proof.
  intros H.
  apply (test_anchored REGEX_LOOOPBACK_URL _ u eq_refl) in H as (s' & H).
  cbn [ignoreCase REGEX_LOOOPBACK_URL] in H.
  inv_seq H H1 H. inv_seq H H2 H. inv_seq H H3 H. inv_seq H H4 H.
  inv_seq H H5 H. inv_seq H H6 H. inversion H; subst; clear H.
  apply lit_inv_ieq in H1 as (w & t1 & -> & -> & Hw).
  apply opt_lit_inv in H2 as (sc & t2 & -> & -> & Hsc).
  apply (lit_inv_nonletter (str "://") _ _ _ _ eq_refl) in H3 as (t3 & -> & ->).
  apply loopback_host_inv in H4 as (h & t4 & -> & -> & Hh).
  apply loopback_port_inv in H5 as (p & t5 & -> & -> & Hp).
  apply (lit_inv_nonletter (str "/") _ _ _ _ eq_refl) in H6 as (t6 & -> & ->).
  exists (w ++ sc), h, p, t6.
  split; [rewrite <- !app_assoc; reflexivity|].
  split; [|auto].
  destruct Hsc as [->|Hsc].
  - left. rewrite app_nil_r. exact Hw.
  - right. apply (ieq_app w sc (str "http") (str "s")); assumption.
Qed.

(** X10: [REGEX_LOOOPBACK_URL] matches exactly the URLs of [loopback_url]:
    http or https in any case, localhost in any case, 127.0.0.1 or one of
    the two bracketed spellings of the IPv6 loopback, an optional decimal
    port, and a slash. *)
Theorem loopback_test_iff u :
  test REGEX_LOOOPBACK_URL u = true <-> loopback_url u.
Proof. split; [apply loopback_sound | apply loopback_complete]. Qed.

Lemma wmatch_opt_lit s a :
  a = [] \/ ieq a (str s) -> wmatch true (ROpt (lit s)) a.
Proof.
  intros [->|H]; [apply wmatch_opt_none | apply wmatch_opt_some, ieq_lit, H].
Qed.

Lemma rawgit_sound u : test REGEX_RAWGIT u = true -> mirror_url u.
Proof.
  intros H.
  apply (test_anchored REGEX_RAWGIT _ u eq_refl) in H as (s' & H).
  cbn [ignoreCase REGEX_RAWGIT] in H.
  inv_seq H H1 H. inv_seq H H3 H. inv_seq H H5 H. inv_seq H H7 H.
  inv_seq H H9 H. inversion H; subst; clear H.
  apply lit_inv_ieq in H1 as (w1 & t & -> & -> & Hw1).
  apply opt_lit_inv in H3 as (w2 & t1 & -> & -> & Hw2).
  apply lit_inv_ieq in H5 as (w3 & t2 & -> & -> & Hw3).
  apply opt_lit_inv in H7 as (w4 & t3 & -> & -> & Hw4).
  apply lit_inv_ieq in H9 as (w5 & t4 & -> & -> & Hw5).
  exists (w1 ++ w2 ++ w3 ++ w4 ++ w5), t4.
  split; [rewrite <- !app_assoc; reflexivity|].
  destruct Hw2 as [->|Hw2], Hw4 as [->|Hw4]; cbn [app].
  - left. apply (ieq_app w1 _ (str "http")); [assumption|].
    apply (ieq_app w3 _ (str "://rawgit") (str ".com/")); assumption.
  - right. right. left. apply (ieq_app w1 _ (str "http")); [assumption|].
    apply (ieq_app w3 _ (str "://rawgit")); [assumption|].
    apply (ieq_app w4 _ (str "hub") (str ".com/")); assumption.
  - right. left. apply (ieq_app w1 _ (str "http")); [assumption|].
    apply (ieq_app w2 _ (str "s")); [assumption|].
    apply (ieq_app w3 _ (str "://rawgit") (str ".com/")); assumption.
  - right. right. right. apply (ieq_app w1 _ (str "http")); [assumption|].
    apply (ieq_app w2 _ (str "s")); [assumption|].
    apply (ieq_app w3 _ (str "://rawgit")); [assumption|].
    apply (ieq_app w4 _ (str "hub") (str ".com/")); assumption.
Qed.

Lemma rawgit_words pre w2 w4 :
  (w2 = [] \/ w2 = str "s") -> (w4 = [] \/ w4 = str "hub") ->
  ieq pre (str "http" ++ w2 ++ str "://rawgit" ++ w4 ++ str ".com/") ->
  wmatch true
    (RSeq (lit "http") (RSeq (ROpt (lit "s")) (RSeq (lit "://rawgit")
       (RSeq (ROpt (lit "hub")) (RSeq (lit ".com/") REmpty))))) pre.
Proof.
  intros H2 H4 H.
  apply ieq_app_r in H as (a1 & r1 & -> & Ha1 & H).
  apply ieq_app_r in H as (a2 & r2 & -> & Ha2 & H).
  apply ieq_app_r in H as (a3 & r3 & -> & Ha3 & H).
  apply ieq_app_r in H as (a4 & a5 & -> & Ha4 & Ha5).
  apply wmatch_seq; [apply ieq_lit, Ha1|].
  apply wmatch_seq.
  { apply wmatch_opt_lit. destruct H2 as [->| ->]; [left|right; exact Ha2].
    destruct a2; [reflexivity | discriminate Ha2]. }
  apply wmatch_seq; [apply ieq_lit, Ha3|].
  apply wmatch_seq.
  { apply wmatch_opt_lit. destruct H4 as [->| ->]; [left|right; exact Ha4].
    destruct a4; [reflexivity | discriminate Ha4]. }
  rewrite <- (app_nil_r a5). apply wmatch_seq; [apply ieq_lit, Ha5|].
  apply wmatch_empty.
Qed.

Lemma rawgit_complete u : mirror_url u -> test REGEX_RAWGIT u = true.
Proof.
  intros (pre & t & -> & H).
  apply (test_anchored REGEX_RAWGIT _ _ eq_refl).
  exists (MState t (0 + length pre) ∅).
  cbn [ignoreCase REGEX_RAWGIT].
  destruct H as [H|[H|[H|H]]].
  - apply (rawgit_words pre [] []); auto.
  - apply (rawgit_words pre (str "s") []); auto.
  - apply (rawgit_words pre [] (str "hub")); auto.
  - apply (rawgit_words pre (str "s") (str "hub")); auto.
Qed.

(** X11: [REGEX_RAWGIT] matches exactly the strings that begin, in any
    case, with http or https, rawgit.com or rawgithub.com, and a slash. *)
Theorem rawgit_test_iff u : test REGEX_RAWGIT u = true <-> mirror_url u.
Proof. split; [apply rawgit_sound | apply rawgit_complete]. Qed.

(** X12: every request whose query-stripped referrer is a [mirror_url] is
    dropped, whatever follows: the referrer begins, in any case, with http
    or https, the host rawgit.com or rawgithub.com, and the slash after the
    host.  A referrer that ends at the host, without that slash, is not a
    [mirror_url]. *)
Theorem referrer_at_mirror_dropped conf Date_parse line r :
  parsed_field line 7 = Some r ->
  mirror_url (strip_query r) ->
  forall e, parseLine conf Date_parse line <> Normal (Some e).
Proof.
  intros Hr Hm. apply (mirror_referrer_dropped conf Date_parse line r Hr).
  apply rawgit_complete, Hm.
Qed.

(** ** The further properties on the sample lines *)

Ltac by_decide := apply (bool_decide_unpack _); vm_compute; exact I.

Example sample_entry_line :
  format_combined sample_entry (str "https://example.com/page") (str "UA")
  = accepted_line.
Proof. vm_compute. reflexivity. Qed.

Lemma parsed_fields_combined_witness :
  wf_entry sample_entry
  /\ (c_quote ∉ str "https://example.com/page")
  /\ (c_quote ∉ str "UA")
  /\ parsed_field
       (format_combined sample_entry (str "https://example.com/page") (str "UA"))
       <$> [1; 2; 3; 4; 5; 6; 7; 8]%nat
     = [Some (str "1.2.3.4"); Some (str "10/Oct/2020:13:55:36 -0700");
        Some (str "GET"); Some (str "/user/repo/main/file.js?x=1");
        Some (str "200"); Some (str "512");
        Some (str "https://example.com/page"); Some (str "UA")].
Proof.
  assert (H1 : wf_entry sample_entry)
    by (unfold wf_entry, token, no_space, dot_ok; repeat split; by_decide).
  assert (H2 : c_quote ∉ str "https://example.com/page") by by_decide.
  assert (H3 : c_quote ∉ str "UA") by by_decide.
  split; [exact H1|]. split; [exact H2|]. split; [exact H3|].
  exact (parsed_fields_combined sample_entry _ _ H1 H2 H3).
Defined.

Lemma parsed_fields_clf_witness :
  wf_entry sample_entry
  /\ parsed_field (format_clf sample_entry) <$> [1; 2; 3; 4; 5; 6; 7; 8]%nat
     = [Some (str "1.2.3.4"); Some (str "10/Oct/2020:13:55:36 -0700");
        Some (str "GET"); Some (str "/user/repo/main/file.js?x=1");
        Some (str "200"); Some (str "512"); None; None].
Proof.
  assert (H1 : wf_entry sample_entry)
    by (unfold wf_entry, token, no_space, dot_ok; repeat split; by_decide).
  split; [exact H1|].
  exact (parsed_fields_clf sample_entry H1).
Defined.

Lemma clf_match_is_entry_witness :
  exec REGEX_CLF accepted_line
  = Some (MatchResult 0 accepted_line
            (combined_caps sample_entry (str "https://example.com/page")
               (str "UA")))
  /\ exists f,
       entry_shape f
       /\ ((accepted_line = format_clf f
            /\ combined_caps sample_entry (str "https://example.com/page")
                 (str "UA") = entry_caps f)
           \/ exists referrer useragent,
                (c_quote ∉ referrer) /\ (c_quote ∉ useragent)
                /\ accepted_line = format_combined f referrer useragent
                /\ combined_caps sample_entry (str "https://example.com/page")
                     (str "UA") = combined_caps f referrer useragent).
Proof.
  assert (H : exec REGEX_CLF accepted_line
    = Some (MatchResult 0 accepted_line
              (combined_caps sample_entry (str "https://example.com/page")
                 (str "UA"))))
    by (vm_compute; reflexivity).
  split; [exact H|].
  exact (clf_match_is_entry accepted_line _ H).
Defined.

Lemma combined_line_forwarded_iff_witness :
  wf_entry sample_entry
  /\ (c_quote ∉ str "https://example.com/page")
  /\ (c_quote ∉ str "UA")
  /\ (parseLine sample_conf sample_date
        (format_combined sample_entry (str "https://example.com/page")
           (str "UA"))
      = Normal (Some accepted_event)
      <->
      le_status sample_entry <> str "403"
      /\ truthy_get (statsIgnorePaths sample_conf)
           (before_query (le_path sample_entry)) = false
      /\ external_shape (before_query (le_path sample_entry))
      /\ test REGEX_LOOOPBACK_URL (strip_query (str "https://example.com/page"))
         = false
      /\ test REGEX_RAWGIT (strip_query (str "https://example.com/page"))
         = false
      /\ accepted_event
         = Event (before_query (le_path sample_entry))
             (strip_query (str "https://example.com/page"))
             (number_or_zero (parseInt10 (Some (le_bytes sample_entry))))
             (or_zero (sample_date
                (replace REGEX_DATE date_template (le_date sample_entry))))).
Proof.
  assert (H1 : wf_entry sample_entry)
    by (unfold wf_entry, token, no_space, dot_ok; repeat split; by_decide).
  assert (H2 : c_quote ∉ str "https://example.com/page") by by_decide.
  assert (H3 : c_quote ∉ str "UA") by by_decide.
  split; [exact H1|]. split; [exact H2|]. split; [exact H3|].
  exact (combined_line_forwarded_iff sample_conf sample_date sample_entry _ _
           accepted_event H1 H2 H3).
Defined.

Lemma combined_line_irrelevant_fields_witness :
  wf_entry sample_entry /\ wf_entry other_entry
  /\ (c_quote ∉ str "https://example.com/page")
  /\ (c_quote ∉ str "UA") /\ (c_quote ∉ str "curl/8.0")
  /\ le_date sample_entry = le_date other_entry
  /\ le_path sample_entry = le_path other_entry
  /\ le_status sample_entry = le_status other_entry
  /\ le_bytes sample_entry = le_bytes other_entry
  /\ parseLine sample_conf sample_date
       (format_combined sample_entry (str "https://example.com/page")
          (str "UA"))
     = parseLine sample_conf sample_date
         (format_combined other_entry (str "https://example.com/page")
            (str "curl/8.0"))
  /\ exists r,
       parseLine sample_conf sample_date
         (format_combined sample_entry (str "https://example.com/page")
            (str "UA"))
       = Normal r.
Proof.
  assert (H1 : wf_entry sample_entry)
    by (unfold wf_entry, token, no_space, dot_ok; repeat split; by_decide).
  assert (H1' : wf_entry other_entry)
    by (unfold wf_entry, token, no_space, dot_ok; repeat split; by_decide).
  assert (H2 : c_quote ∉ str "https://example.com/page") by by_decide.
  assert (H3 : c_quote ∉ str "UA") by by_decide.
  assert (H4 : c_quote ∉ str "curl/8.0") by by_decide.
  split; [exact H1|]. split; [exact H1'|]. split; [exact H2|].
  split; [exact H3|]. split; [exact H4|].
  split; [reflexivity|]. split; [reflexivity|]. split; [reflexivity|].
  split; [reflexivity|].
  exact (combined_line_irrelevant_fields sample_conf sample_date sample_entry
           other_entry _ _ _ H1 H1' H2 H3 H4 eq_refl eq_refl eq_refl eq_refl).
Defined.

Lemma date_colon_replaced_witness :
  no_date_start (str "10/Oct") = true
  /\ str "2020" <> []
  /\ Forall (fun c => is_digit c = true) (str "2020")
  /\ str "13" <> []
  /\ Forall (fun c => is_digit c = true) (str "13")
  /\ ends_run false CsDigit (str ":55:36 -0700")
  /\ replace REGEX_DATE date_template
       (str "10/Oct" ++ c_slash :: str "2020" ++ c_colon :: str "13"
          ++ str ":55:36 -0700")
     = str "10/Oct" ++ c_slash :: str "2020" ++ c_space :: str "13"
         ++ str ":55:36 -0700".
Proof.
  assert (H1 : no_date_start (str "10/Oct") = true) by reflexivity.
  assert (H2 : str "2020" <> []) by discriminate.
  assert (H3 : Forall (fun c => is_digit c = true) (str "2020")) by by_decide.
  assert (H4 : str "13" <> []) by discriminate.
  assert (H5 : Forall (fun c => is_digit c = true) (str "13")) by by_decide.
  assert (H6 : ends_run false CsDigit (str ":55:36 -0700"))
    by (intros c [= <-]; reflexivity).
  split; [exact H1|]. split; [exact H2|]. split; [exact H3|].
  split; [exact H4|]. split; [exact H5|]. split; [exact H6|].
  exact (date_colon_replaced _ _ _ _ H1 H2 H3 H4 H5 H6).
Defined.

Lemma referrer_at_mirror_dropped_witness :
  parsed_field mirror_deep_line 7
    = Some (str "https://rawgit.com/user/repo/main/index.html")
  /\ mirror_url (strip_query (str "https://rawgit.com/user/repo/main/index.html"))
  /\ forall e, parseLine sample_conf sample_date mirror_deep_line
               <> Normal (Some e).
Proof.
  assert (H1 : parsed_field mirror_deep_line 7
               = Some (str "https://rawgit.com/user/repo/main/index.html"))
    by (vm_compute; reflexivity).
  assert (H2 : mirror_url
                 (strip_query (str "https://rawgit.com/user/repo/main/index.html"))).
  { exists (str "https://rawgit.com/"), (str "user/repo/main/index.html").
    split; [vm_compute; reflexivity|]. right. left. reflexivity. }
  split; [exact H1|]. split; [exact H2|].
  exact (referrer_at_mirror_dropped sample_conf sample_date mirror_deep_line _
           H1 H2).
Defined.

Lemma run_stream_witness :
  let st := init sample_conf sample_exists in
  let cs := [take 30 accepted_line;
             drop 30 accepted_line ++ [c_lf] ++ str "1.2.3.4 - -"] in
  uncaught st = None
  /\ (c_lf ∉ overflow st)
  /\ parse_lines sample_conf sample_date
       (stream_lines (overflow st ++ concat cs)) (logged st)
     = ([accepted_event], Normal tt)
  /\ run sample_conf sample_date sample_log st (readables cs)
     = ModuleState (enabled st) (spawned st)
         (stream_rest (overflow st ++ concat cs)) [accepted_event] None.
Proof.
  intros st cs.
  assert (H1 : uncaught st = None) by reflexivity.
  assert (H2 : c_lf ∉ overflow st) by by_decide.
  assert (H3 : parse_lines sample_conf sample_date
                 (stream_lines (overflow st ++ concat cs)) (logged st)
               = ([accepted_event], Normal tt))
    by (vm_compute; reflexivity).
  split; [exact H1|]. split; [exact H2|]. split; [exact H3|].
  exact (run_stream sample_conf sample_date sample_log cs st _ H1 H2 H3).
Defined.

Lemma overflow_dropped_at_exit_witness :
  let st := init sample_conf sample_exists in
  let cs1 := [accepted_line ++ [c_lf] ++ take 30 accepted_line] in
  let cs2 := [drop 30 accepted_line ++ [c_lf]] in
  uncaught st = None
  /\ (c_lf ∉ overflow st)
  /\ parse_lines sample_conf sample_date
       (stream_lines (overflow st ++ concat cs1)) (logged st)
     = ([accepted_event], Normal tt)
  /\ parse_lines sample_conf sample_date (stream_lines (concat cs2))
       [accepted_event]
     = ([accepted_event], Normal tt)
  /\ run sample_conf sample_date sample_log st
       (readables cs1 ++ OnExit :: readables cs2)
     = ModuleState (enabled st) (spawned st ++ [Spawn 0 sample_log])
         (stream_rest (concat cs2)) [accepted_event] None.
Proof.
  intros st cs1 cs2.
  assert (H1 : uncaught st = None) by reflexivity.
  assert (H2 : c_lf ∉ overflow st) by by_decide.
  assert (H3 : parse_lines sample_conf sample_date
                 (stream_lines (overflow st ++ concat cs1)) (logged st)
               = ([accepted_event], Normal tt))
    by (vm_compute; reflexivity).
  assert (H4 : parse_lines sample_conf sample_date
                 (stream_lines (concat cs2)) [accepted_event]
               = ([accepted_event], Normal tt))
    by (vm_compute; reflexivity).
  split; [exact H1|]. split; [exact H2|]. split; [exact H3|].
  split; [exact H4|].
  exact (overflow_dropped_at_exit sample_conf sample_date sample_log cs1 cs2
           st _ _ H1 H2 H3 H4).
Defined.
